(** * catalyst-plugin-graphql: schema-driven operation synthesis

    A shallow embedding of [src/index.js] (and of the older revision of the
    same file, whose [_connect] has no test for the mutation type and whose
    operations take no [options]) together with the properties of its
    query-text construction engine, of its default projection selector, of
    its transport-session recycling and of its failure classification. *)

From Stdlib Require Import ZArith Ascii String List Bool Lia.
From stdpp Require Import base option list gmap strings.

Local Open Scope Z_scope.

(** ** JavaScript data *)

(** The values a projection is built from.  A JS object is kept as the list
    of its own enumerable properties in [Object.entries] order (insertion
    order for the identifier-like keys GraphQL names are). *)
#[warnings="-register-all"]
Inductive JSValue : Type :=
| JUndefined
| JNull
| JBool (b : bool)
| JNum (n : Z)
| JObj (entries : list (string * JSValue)).

(** [!!v] *)
Definition truthy (v : JSValue) : bool :=
  match v with
  | JUndefined | JNull => false
  | JBool b => b
  | JNum n => negb (n =? 0)
  | JObj _ => true
  end.

(** [typeof v === 'object'] : objects, and also [null]. *)
Definition typeof_object (v : JSValue) : bool :=
  match v with
  | JNull | JObj _ => true
  | _ => false
  end.

(** lodash [isEmpty]: nullish values, booleans and numbers are empty; an
    object is empty when it has no own enumerable key. *)
Definition isEmpty (v : JSValue) : bool :=
  match v with
  | JObj (_ :: _) => false
  | _ => true
  end.

(** Truthiness of a string: every string but [''] . *)
Definition truthy_string (s : string) : bool :=
  match s with
  | EmptyString => false
  | String _ _ => true
  end.

(** [xs.join(sep)] on an array of strings. *)
Fixpoint join (sep : string) (xs : list string) : string :=
  match xs with
  | [] => ""
  | [x] => x
  | x :: rest => x +:+ sep +:+ join sep rest
  end.

(** A thrown value.  [networkError] is the property the failure
    classification reads; [statusCode] is a JS number when present. *)
Record NetworkError : Type := mkNetworkError { statusCode : option Z }.

Record JSError : Type := mkJSError {
  err_name : string;
  err_message : string;
  networkError : option NetworkError
}.

Definition TypeError (msg : string) : JSError :=
  {| err_name := "TypeError"; err_message := msg; networkError := None |}.

Definition RangeError (msg : string) : JSError :=
  {| err_name := "RangeError"; err_message := msg; networkError := None |}.

(** How a JS computation completes. *)
Inductive Completion (A : Type) : Type :=
| Normal (a : A)
| Throw (e : JSError).
Arguments Normal {A} a.
Arguments Throw {A} e.

(** Sequencing: a throw skips the rest of the block. *)
#[global] Instance Completion_ret : MRet Completion := fun A a => Normal a.
#[global] Instance Completion_bind : MBind Completion := fun A B k c =>
  match c with
  | Normal a => k a
  | Throw e => Throw e
  end.

(** ** The GraphQL type system, as graphql-js exposes it *)

(** A field's or an argument's [type]: a named type inside any number of
    [GraphQLNonNull] and [GraphQLList] wrappers. *)
Inductive TypeRef : Type :=
| Named (name : string)
| NonNull (ofType : TypeRef)
| List (ofType : TypeRef).

Record Argument : Type := mkArgument {
  arg_name : string;
  arg_type : TypeRef
}.

Record Field : Type := mkField {
  field_name : string;
  field_args : list Argument;
  field_type : TypeRef
}.

(** The classes of named types.  [getFields()] of an object type is the list
    of its fields in declaration order. *)
Inductive NamedType : Type :=
| GraphQLScalarType
| GraphQLEnumType
| GraphQLObjectType (fields : list Field)
| GraphQLInterfaceType (fields : list Field)
| GraphQLUnionType (possibleTypes : list string)
| GraphQLInputObjectType.

(** The introspected schema: the fields of its query type, the fields of its
    mutation type when it has one, and the named types its type references
    resolve to (named types refer to each other, possibly in cycles). *)
Record Schema : Type := mkSchema {
  typeMap : string -> NamedType;
  queryType : list Field;
  mutationType : option (list Field)
}.

(** graphql-js [getNamedType]: strips every wrapper. *)
Fixpoint getNamedType (t : TypeRef) : string :=
  match t with
  | Named name => name
  | NonNull ofType => getNamedType ofType
  | List ofType => getNamedType ofType
  end.

(** graphql-js [isLeafType(type)] is [isScalarType(type) || isEnumType(type)]:
    an [instanceof] test on the type object itself, so a wrapper is never a
    leaf type. *)
Definition isLeafType (types : string -> NamedType) (t : TypeRef) : bool :=
  match t with
  | Named name =>
      match types name with
      | GraphQLScalarType | GraphQLEnumType => true
      | _ => false
      end
  | _ => false
  end.

(** ** Type Expression Renderer *)

Fixpoint _makeFieldTypeExpr (type : TypeRef) : string :=
  match type with
  | NonNull ofType => _makeFieldTypeExpr ofType +:+ "!"
  | List ofType => "[" +:+ _makeFieldTypeExpr ofType +:+ "]"
  | Named name => name
  end.


(** ** Selection-set renderer *)

(** [array.filter(v => v)] on the results of the [map] callback, which are
    strings or [undefined] ([None]). *)
Definition filter_truthy (xs : list (option string)) : list string :=
  omap (fun v =>
          match v with
          | Some s => if truthy_string s then Some s else None
          | None => None
          end) xs.

(** [Object.entries(projections).map(callback)] reads the property list of
    an object; a truthy primitive has no own enumerable property. *)
Fixpoint _makeReturnExpr (projections : JSValue) : string :=
  if negb (truthy projections) then "" else
  let expr :=
    join ", "
      (filter_truthy
         (match projections with
          | JObj entries =>
              map (fun entry : string * JSValue =>
                     let (field, show) := entry in
                     if typeof_object show then
                       Some (field +:+ " " +:+ _makeReturnExpr show)
                     else if truthy show then Some field
                     else None)
                  entries
          | _ => []
          end)) in
  if truthy_string expr then "{" +:+ expr +:+ "}" else "".

(** ** Default Projection Selector *)

(** [object[key] = value] on the property list of an object. *)
Fixpoint set_property (entries : list (string * JSValue)) (key : string)
  (value : JSValue) : list (string * JSValue) :=
  match entries with
  | [] => [(key, value)]
  | (k, v) :: rest =>
      if String.eqb k key then (k, value) :: rest
      else (k, v) :: set_property rest key value
  end.

(** The [for ... of Object.values(returnType.getFields())] loop of
    [_makeDefaultProjection]: [Some p] when the loop body returns [p],
    [None] when the loop runs to its end. *)
Fixpoint scan_fields (types : string -> NamedType)
  (projection : list (string * JSValue)) (fields : list Field)
  : option JSValue :=
  match fields with
  | [] => None
  | field :: rest =>
      if isLeafType types (field_type field) then
        Some (JObj (set_property projection (field_name field) (JBool true)))
      else scan_fields types projection rest
  end.

(** [stack] is the number of call frames the engine still grants: the
    recursion of [_makeDefaultProjection] follows the schema's type
    references, which may be cyclic, and a recursion that exhausts the
    stack throws a [RangeError]. *)
Fixpoint _makeDefaultProjection (types : string -> NamedType) (stack : nat)
  (returnType : string) : Completion JSValue :=
  match stack with
  | O => Throw (RangeError "Maximum call stack size exceeded")
  | S stack' =>
      let projection := [] in
      match types returnType with
      | GraphQLObjectType fields =>
          match scan_fields types projection fields with
          | Some returned => Normal returned
          | None =>
              match fields with
              | [] => Throw (TypeError "Cannot read property 'name' of undefined")
              | field :: _ =>
                  sub ← _makeDefaultProjection types stack'
                          (getNamedType (field_type field));
                  Normal (JObj (set_property projection (field_name field) sub))
              end
          end
      | _ => Normal (JObj projection)
      end
  end.

(** ** The client object *)

Inductive OperationKind : Type := Query | Mutation.

(** What the closure installed as [this[field.name]] captures. *)
Record Operation : Type := mkOperation {
  op_kind : OperationKind;
  op_field : Field;
  queryArgDeclare : string;
  queryArgs : string;
  defaultProjections : JSValue
}.

(** A logger is known by its name; [fail] is its reporting capability, which
    may itself throw (the default logger's does). *)
Record Logger : Type := mkLogger {
  logger_name : string;
  fail : string -> JSError -> Completion JSValue
}.

(** The state of a [GraphQLClient].  [apollo] holds the identity of the
    current [ApolloClient] instance.  [members] holds what [_connect]
    assigns as [this[field.name]], by name.  The record describes the
    object for schemas none of whose field names is one of the names the
    client has already ([logger], [counter], [apollo], [schema],
    [_ensureClient], ...); a field of such a name would replace that
    property or method on the object, which [members] does not show. *)
Record GraphQLClient : Type := mkGraphQLClient {
  logger : Logger;
  resetStoreEvery : Z;
  apollo : option nat;
  counter : Z;
  schema : option Schema;
  members : gmap string Operation
}.

Definition MAX_SAFE_INTEGER : Z := 2 ^ 53 - 1.

(** [new GraphQLClient(logger, links, clientOptions, httpOptions,
    otherOptions)]. *)
Definition constructor (logger : Logger) (resetStoreEvery : Z) : GraphQLClient :=
  {| logger := logger;
     resetStoreEvery := resetStoreEvery;
     apollo := None;
     counter := MAX_SAFE_INTEGER;
     schema := None;
     members := ∅ |}.

Definition set_schema (s : Schema) (this : GraphQLClient) : GraphQLClient :=
  {| logger := logger this; resetStoreEvery := resetStoreEvery this;
     apollo := apollo this; counter := counter this;
     schema := Some s; members := members this |}.

Definition set_member (name : string) (op : Operation) (this : GraphQLClient)
  : GraphQLClient :=
  {| logger := logger this; resetStoreEvery := resetStoreEvery this;
     apollo := apollo this; counter := counter this;
     schema := schema this; members := <[name := op]> (members this) |}.

Definition set_apollo (a : option nat) (this : GraphQLClient) : GraphQLClient :=
  {| logger := logger this; resetStoreEvery := resetStoreEvery this;
     apollo := a; counter := counter this;
     schema := schema this; members := members this |}.

Definition set_counter (c : Z) (this : GraphQLClient) : GraphQLClient :=
  {| logger := logger this; resetStoreEvery := resetStoreEvery this;
     apollo := apollo this; counter := c;
     schema := schema this; members := members this |}.

(** ** Operation Synthesizer *)

(** The three constants computed per field before the closure is made. *)
Definition make_operation (kind : OperationKind) (types : string -> NamedType)
  (stack : nat) (field : Field) : Completion Operation :=
  let queryArgDeclare :=
    join ", " (map (fun a => "$" +:+ arg_name a +:+ ": "
                              +:+ _makeFieldTypeExpr (arg_type a))
                   (field_args field)) in
  let queryArgs :=
    join ", " (map (fun a => arg_name a +:+ ": $" +:+ arg_name a)
                   (field_args field)) in
  defaultProjections ← _makeDefaultProjection types stack
                         (getNamedType (field_type field));
  Normal {| op_kind := kind; op_field := field;
            queryArgDeclare := queryArgDeclare; queryArgs := queryArgs;
            defaultProjections := defaultProjections |}.

(** One [for (const field of Object.values(type.getFields()))] loop of
    [_connect]. *)
Fixpoint install (kind : OperationKind) (types : string -> NamedType)
  (stack : nat) (fields : list Field) (this : GraphQLClient)
  : Completion GraphQLClient :=
  match fields with
  | [] => Normal this
  | field :: rest =>
      op ← make_operation kind types stack field;
      install kind types stack rest (set_member (field_name field) op this)
  end.

(** [_connect] of [src/index.js], on the schema [introspectSchema] returned. *)
Definition _connect (stack : nat) (introspected : Schema) (this : GraphQLClient)
  : Completion GraphQLClient :=
  let this := set_schema introspected this in
  this ← install Query (typeMap introspected) stack (queryType introspected) this;
  match mutationType introspected with
  | Some fields => install Mutation (typeMap introspected) stack fields this
  | None => Normal this
  end.

(** ** Transport Session Manager *)

(** What reaches [apollo.query] / [apollo.mutate]. *)
Record Request : Type := mkRequest {
  req_instance : nat;
  req_kind : OperationKind;
  req_document : string;
  req_variables : JSValue;
  req_options : JSValue;
  req_logger : string
}.

(** What a run does to the outside, in order. *)
Inductive Event : Type :=
| NewApolloClient (id : nat)
| Executed (req : Request)
| LoggerFail (logger : string) (code : string) (cause : JSError).

Record World : Type := mkWorld {
  this : GraphQLClient;
  events : list Event
}.

(** The [ApolloClient] instances constructed so far. *)
Definition constructed (evs : list Event) : list nat :=
  omap (fun ev => match ev with NewApolloClient id => Some id | _ => None end) evs.

(** [counter++] on a double that holds an integer between 0 and 2^53:
    2^53 + 1 is not representable and rounds back to 2^53. *)
Definition js_increment (n : Z) : Z :=
  if n <? 2 ^ 53 then n + 1 else n.

Definition _ensureClient (w : World) : World :=
  let w :=
    if resetStoreEvery (this w) <=? counter (this w) then
      let id := length (constructed (events w)) in
      {| this := set_counter 0 (set_apollo (Some id) (this w));
         events := events w ++ [NewApolloClient id] |}
    else w in
  {| this := set_counter (js_increment (counter (this w))) (this w);
     events := events w |}.

(** ** A synthesized operation *)

(** The collaborators of a call: the [gql] tag, which parses the document
    text, and the transport behind [apollo.query] and [apollo.mutate]. *)
Record Externals : Type := mkExternals {
  gql : string -> Completion string;
  transport : Request -> Completion JSValue
}.

(** What a property read gives: a value among the own properties of the
    object ([undefined] when the name is found nowhere), or the built-in
    member every value of that kind inherits under the name, such as
    [constructor] or [toString]. *)
Inductive Returned : Type :=
| Found (value : JSValue)
| Inherited (key : string).

(** The own property names of [Object.prototype], which plain objects,
    booleans and numbers inherit (booleans and numbers through their own
    prototypes, which redefine some of them), and those [Number.prototype]
    adds. *)
Definition Object_prototype : list string :=
  [ "constructor"; "__defineGetter__"; "__defineSetter__"; "hasOwnProperty";
    "__lookupGetter__"; "__lookupSetter__"; "isPrototypeOf";
    "propertyIsEnumerable"; "toString"; "valueOf"; "__proto__";
    "toLocaleString" ].

Definition Number_prototype : list string :=
  [ "toExponential"; "toFixed"; "toPrecision" ].

Definition is_member (key : string) (names : list string) : bool :=
  existsb (String.eqb key) names.

(** [object[key]] for a key that is a member of no built-in prototype, as
    [data] is: an own property, or [undefined]. *)
Definition get (object : JSValue) (key : string) : Completion JSValue :=
  match object with
  | JUndefined | JNull =>
      Throw (TypeError ("Cannot read property '" +:+ key +:+ "' of undefined"))
  | JObj entries =>
      Normal (default JUndefined
                (snd <$> List.find (fun kv => String.eqb (fst kv) key) entries))
  | _ => Normal JUndefined
  end.

(** [object[key]] for any key: own properties first, then the prototype
    chain of the value. *)
Definition member (object : JSValue) (key : string) : Completion Returned :=
  match object with
  | JUndefined | JNull =>
      Throw (TypeError ("Cannot read property '" +:+ key +:+ "' of undefined"))
  | JObj entries =>
      match List.find (fun kv => String.eqb (fst kv) key) entries with
      | Some kv => Normal (Found (snd kv))
      | None =>
          if is_member key Object_prototype then Normal (Inherited key)
          else Normal (Found JUndefined)
      end
  | JBool _ =>
      if is_member key Object_prototype then Normal (Inherited key)
      else Normal (Found JUndefined)
  | JNum _ =>
      if is_member key (Object_prototype ++ Number_prototype)
      then Normal (Inherited key)
      else Normal (Found JUndefined)
  end.

Definition keyword (kind : OperationKind) : string :=
  match kind with Query => "query" | Mutation => "mutation" end.

(** The method of the [ApolloClient] an operation calls. *)
Definition method (kind : OperationKind) : string :=
  match kind with Query => "query" | Mutation => "mutate" end.

(** [if (!projections || isEmpty(projections)) projections = defaultProjections] *)
Definition effective_projections (op : Operation) (projections : JSValue) : JSValue :=
  if negb (truthy projections) || isEmpty projections
  then defaultProjections op else projections.

(** The text handed to the [gql] tag. *)
Definition document_text (op : Operation) (projections : JSValue) : string :=
  keyword (op_kind op) +:+ " (" +:+ queryArgDeclare op +:+ ") { "
    +:+ field_name (op_field op) +:+ " (" +:+ queryArgs op +:+ ") "
    +:+ _makeReturnExpr projections +:+ " }".

(** [e.networkError && (!e.networkError.statusCode ||
    e.networkError.statusCode >= 500)] *)
Definition server_error (e : JSError) : bool :=
  match networkError e with
  | Some ne =>
      match statusCode ne with
      | None => true
      | Some code => (code =? 0) || (500 <=? code)
      end
  | None => false
  end.

(** The [try] block: the session is ensured, the method is read from
    [this.apollo], the argument is built (the [gql] tag parses the text,
    then [options.context] is read), the transport runs, and the field's
    value is taken from the response. *)
Definition attempt (ext : Externals) (op : Operation) (logger : Logger)
  (variables projections options : JSValue) (w : World)
  : World * Completion Returned :=
  let w := _ensureClient w in
  match apollo (this w) with
  | None =>
      (w, Throw (TypeError ("Cannot read property '" +:+ method (op_kind op)
                              +:+ "' of undefined")))
  | Some id =>
      match gql ext (document_text op projections) with
      | Throw e => (w, Throw e)
      | Normal document =>
          match options with
          | JNull =>
              (w, Throw (TypeError "Cannot read property 'context' of null"))
          | _ =>
              let req := {| req_instance := id; req_kind := op_kind op;
                            req_document := document;
                            req_variables := variables;
                            req_options := options;
                            req_logger := logger_name logger |} in
              ({| this := this w; events := events w ++ [Executed req] |},
               resp ← transport ext req;
               data ← get resp "data";
               member data (field_name (op_field op)))
          end
      end
  end.

(** [this[field.name]] : the function [(logger, variables, projections,
    options = {})]; a falsy [logger] argument is [None]. *)
Definition invoke (ext : Externals) (op : Operation)
  (caller_logger : option Logger) (variables projections options : JSValue)
  (w : World) : World * Completion Returned :=
  let options := match options with JUndefined => JObj [] | _ => options end in
  let logger :=
    match caller_logger with Some l => l | None => logger (this w) end in
  let projections := effective_projections op projections in
  let (w, outcome) := attempt ext op logger variables projections options w in
  match outcome with
  | Normal value => (w, Normal value)
  | Throw e =>
      if server_error e then
        ({| this := this w;
            events := events w ++
                      [LoggerFail (logger_name logger) "_failed_api_server_error" e] |},
         _ ← fail logger "_failed_api_server_error" e; Normal (Found JUndefined))
      else (w, Throw e)
  end.

(** The older revision of the file: [getMutationType()] is dereferenced
    without a test, and an operation takes no [options]. *)
Module Older.

Definition _connect (stack : nat) (introspected : Schema)
  (this : GraphQLClient) : Completion GraphQLClient :=
  let this := set_schema introspected this in
  this ← install Query (typeMap introspected) stack (queryType introspected) this;
  match mutationType introspected with
  | Some fields => install Mutation (typeMap introspected) stack fields this
  | None => Throw (TypeError "Cannot read property 'getFields' of undefined")
  end.

Definition invoke (ext : Externals) (op : Operation)
  (caller_logger : option Logger) (variables projections : JSValue)
  (w : World) : World * Completion Returned :=
  invoke ext op caller_logger variables projections (JObj []) w.

End Older.

(** [n] calls of [_ensureClient] in a row. *)
Fixpoint ensure_times (n : nat) (w : World) : World :=
  match n with
  | O => w
  | S n' => _ensureClient (ensure_times n' w)
  end.

(** ** Sample data *)

Definition sample_logger : Logger :=
  {| logger_name := "quiet"; fail := fun _ _ => Normal JUndefined |}.

(** [type User { id: ID!  name: String }] *)
Definition user_fields : list Field :=
  [ {| field_name := "id"; field_args := []; field_type := NonNull (Named "ID") |};
    {| field_name := "name"; field_args := []; field_type := Named "String" |} ].

(** [User] as above, [type Token { id: ID! }], an object type [Empty]
    without fields, an interface [Node]; every other name is a scalar. *)
Definition user_types (name : string) : NamedType :=
  if String.eqb name "User" then GraphQLObjectType user_fields
  else if String.eqb name "Token" then
    GraphQLObjectType
      [ {| field_name := "id"; field_args := [];
           field_type := NonNull (Named "ID") |} ]
  else if String.eqb name "Empty" then GraphQLObjectType []
  else if String.eqb name "Node" then GraphQLInterfaceType user_fields
  else GraphQLScalarType.

(** [type Query { user(id: ID!): User  ping: String }] and
    [type Mutation { ping: String }]. *)
Definition user_query : list Field :=
  [ {| field_name := "user";
       field_args := [ {| arg_name := "id"; arg_type := NonNull (Named "ID") |} ];
       field_type := Named "User" |};
    {| field_name := "ping"; field_args := []; field_type := Named "String" |} ].

Definition ping_mutation : list Field :=
  [ {| field_name := "ping"; field_args := []; field_type := Named "String" |} ].

Definition user_schema (mutation : option (list Field)) : Schema :=
  {| typeMap := user_types; queryType := user_query; mutationType := mutation |}.

(** A [ServerError] of the HTTP link, with the status code of the response. *)
Definition server_failure (code : option Z) : JSError :=
  {| err_name := "ServerError";
     err_message := "Response not successful";
     networkError := Some {| statusCode := code |} |}.

(** Whether a text holds an opening parenthesis directly followed by a
    closing one. *)
Fixpoint empty_parentheses (text : string) : bool :=
  match text with
  | EmptyString => false
  | String c rest =>
      match rest with
      | String d _ =>
          (Ascii.eqb c "("%char && Ascii.eqb d ")"%char) || empty_parentheses rest
      | EmptyString => false
      end
  end.

(** A [gql] tag for the samples: like the parser behind the real tag, it
    throws a syntax error on an empty pair of parentheses, which is what a
    field without arguments gets; the other sample documents it returns as
    they are. *)
Definition sample_gql (text : string) : Completion string :=
  if empty_parentheses text then
    Throw {| err_name := "GraphQLError";
             err_message := "Syntax Error: Expected Name, found )";
             networkError := None |}
  else Normal text.

(** Collaborators whose transport rejects every request with [e]. *)
Definition failing_externals (e : JSError) : Externals :=
  {| gql := sample_gql; transport := fun _ => Throw e |}.

(** The operation [_connect] makes for [user(id: ID!): User]. *)
Definition user_operation : Operation :=
  {| op_kind := Query;
     op_field := {| field_name := "user";
                    field_args := [ {| arg_name := "id";
                                       arg_type := NonNull (Named "ID") |} ];
                    field_type := Named "User" |};
     queryArgDeclare := "$id: ID!"; queryArgs := "id: $id";
     defaultProjections := JObj [("name", JBool true)] |}.

(** [{id: 1}] *)
Definition user_variables : JSValue := JObj [("id", JNum 1)].

Definition ping_operation : Operation :=
  {| op_kind := Query;
     op_field := {| field_name := "ping"; field_args := [];
                    field_type := Named "String" |};
     queryArgDeclare := ""; queryArgs := "";
     defaultProjections := JObj [] |}.

Definition fresh_world (resetStoreEvery : Z) : World :=
  {| this := constructor sample_logger resetStoreEvery; events := [] |}.

(** ** The specification's wording, for comparison *)

(** The leaf test as the specification words it for the scan: on the type
    the field's declared type resolves to, wrappers removed. *)
Definition resolves_to_leaf (types : string -> NamedType) (field : Field) : bool :=
  isLeafType types (Named (getNamedType (field_type field))).

(** The selector on an object type with fields [fields], as the
    specification words it. *)
Definition spec_select (types : string -> NamedType) (stack : nat)
  (fields : list Field) : Completion JSValue :=
  match List.find (resolves_to_leaf types) fields with
  | Some field => Normal (JObj [(field_name field, JBool true)])
  | None =>
      match fields with
      | [] => Throw (TypeError "Cannot read property 'name' of undefined")
      | first :: _ =>
          sub ← _makeDefaultProjection types stack
                  (getNamedType (field_type first));
          Normal (JObj [(field_name first, sub)])
      end
  end.

(** The failure classification as the specification words it: a
    network-layer failure whose status code is missing or at least 500. *)
Definition spec_server_error (e : JSError) : bool :=
  match networkError e with
  | Some ne =>
      match statusCode ne with
      | None => true
      | Some code => 500 <=? code
      end
  | None => false
  end.

(** What one entry of a projection contributes, as the specification words
    it: a nested projection gives the field name, a space and the rendered
    sub-selection; any other truthy value gives the bare field name; a
    falsy one, [null] included, gives nothing. *)
Definition entry_expr (entry : string * JSValue) : option string :=
  match snd entry with
  | JObj sub => Some (fst entry +:+ " " +:+ _makeReturnExpr (JObj sub))
  | show => if truthy show then Some (fst entry) else None
  end.

(** ** Further definitions used by the properties below *)

(** The first and the last character of a string. *)
Definition first_char (s : string) : option ascii :=
  match s with
  | EmptyString => None
  | String c _ => Some c
  end.

Fixpoint last_char (s : string) : option ascii :=
  match s with
  | EmptyString => None
  | String c EmptyString => Some c
  | String _ rest => last_char rest
  end.

(** The named type inside a type reference has a name that does not begin
    with a bracket nor end with an exclamation mark, as no GraphQL name
    does. *)
Definition well_named (t : TypeRef) : Prop :=
  first_char (getNamedType t) <> Some "["%char /\
  last_char (getNamedType t) <> Some "!"%char.

(** The number of requests the transport client [id] was sent. *)
Definition served (id : nat) (evs : list Event) : nat :=
  length (List.filter
            (fun ev => match ev with
                       | Executed req => Nat.eqb (req_instance req) id
                       | _ => false
                       end) evs).

(** The arguments of one call of an operation. *)
Record Call : Type := mkCall {
  call_operation : Operation;
  call_logger : option Logger;
  call_variables : JSValue;
  call_projections : JSValue;
  call_options : JSValue
}.

(** Calls made one after the other, each awaited before the next. *)
Fixpoint run_calls (ext : Externals) (calls : list Call) (w : World) : World :=
  match calls with
  | [] => w
  | c :: rest =>
      run_calls ext rest
        (fst (invoke ext (call_operation c) (call_logger c) (call_variables c)
                (call_projections c) (call_options c) w))
  end.

(** The world after the session is ensured and the request [req] has
    reached the transport. *)
Definition executed (req : Request) (w : World) : World :=
  {| this := this (_ensureClient w);
     events := events (_ensureClient w) ++ [Executed req] |}.

(** The request a call of [op] sends on the transport client [id], for the
    document [document]: [options] after its default, and the name of the
    effective logger in the context. *)
Definition request_of (op : Operation) (caller_logger : option Logger)
  (variables options : JSValue) (w : World) (id : nat) (document : string)
  : Request :=
  {| req_instance := id; req_kind := op_kind op; req_document := document;
     req_variables := variables;
     req_options := match options with JUndefined => JObj [] | _ => options end;
     req_logger := logger_name
                     match caller_logger with
                     | Some l => l
                     | None => logger (this w)
                     end |}.

(** What holds of a session between calls ([slack] 0) and right after
    [_ensureClient] ([slack] 1), for the threshold [t]: either nothing was
    constructed yet, or the current transport client is the last one
    constructed, the counter lies between 1 and [t] and bounds, with
    [slack] to spare, the requests the current client was sent; every
    earlier client was sent at most [t] requests and no later one any. *)
Definition session_invariant (t slack : Z) (w : World) : Prop :=
  resetStoreEvery (this w) = t /\
  ((apollo (this w) = None /\ counter (this w) = MAX_SAFE_INTEGER /\
    constructed (events w) = [] /\
    forall id, served id (events w) = 0%nat) \/
   (exists cur,
       apollo (this w) = Some cur /\
       length (constructed (events w)) = S cur /\
       1 <= counter (this w) <= t /\
       Z.of_nat (served cur (events w)) + slack <= counter (this w) /\
       (forall id, id <> cur -> Z.of_nat (served id (events w)) <= t) /\
       (forall id, (cur < id)%nat -> served id (events w) = 0%nat))).

(** [new Error(message)] *)
Definition new_Error (message : string) : JSError :=
  {| err_name := "Error"; err_message := message; networkError := None |}.

(** [defaultLogger.fail(code, err, ...args)], and [crash], which has the
    same body.  [instanceof_Error] tells whether a thrown value is an
    [Error] instance and [to_String] gives its string conversion; [args]
    holds the string conversions of the further arguments. *)
Definition defaultLogger_fail (instanceof_Error : JSError -> bool)
  (to_String : JSError -> string) (code : string) (err : JSError)
  (args : list string) : Completion JSValue :=
  if instanceof_Error err && Nat.leb (length args) 0 then Throw err
  else Throw (new_Error (join "" (to_String err :: args))).

Definition defaultLogger (instanceof_Error : JSError -> bool)
  (to_String : JSError -> string) : Logger :=
  {| logger_name := "defaultLogger";
     fail := fun code err =>
               defaultLogger_fail instanceof_Error to_String code err [] |}.

(** [type Person { friends: [Person!]!  id: ID! }] and
    [type Query { me: Person }]. *)
Definition person_types (name : string) : NamedType :=
  if String.eqb name "Person" then
    GraphQLObjectType
      [ {| field_name := "friends"; field_args := [];
           field_type := NonNull (List (NonNull (Named "Person"))) |};
        {| field_name := "id"; field_args := [];
           field_type := NonNull (Named "ID") |} ]
  else GraphQLScalarType.

Definition person_schema : Schema :=
  {| typeMap := person_types;
     queryType := [ {| field_name := "me"; field_args := [];
                       field_type := Named "Person" |} ];
     mutationType := None |}.

(** Collaborators whose transport answers every request with [resp]. *)
Definition answering_externals (resp : JSValue) : Externals :=
  {| gql := sample_gql; transport := fun _ => Normal resp |}.

(** The names a [GraphQLClient] has already: the properties its constructor
    and [_connect] set and the methods of its class. *)
Definition own_names : list string :=
  [ "logger"; "links"; "clientOptions"; "otherOptions"; "apollo"; "counter";
    "schema"; "constructor"; "_connect"; "_ensureClient";
    "_makeFieldTypeExpr"; "_makeReturnExpr"; "_makeDefaultProjection" ].

(** * Properties *)

(** C6. The type-expression renderer returns the name of a named type,
    appends an exclamation mark to the rendering of what a non-null wrapper
    wraps, and brackets the rendering of what a list wrapper wraps, at any
    nesting depth; the non-null list of non-null Int renders as [[Int!]!]. *)
Theorem makeFieldTypeExpr_rules :
  (forall name, _makeFieldTypeExpr (Named name) = name) /\
  (forall inner, _makeFieldTypeExpr (NonNull inner) = _makeFieldTypeExpr inner +:+ "!") /\
  (forall inner, _makeFieldTypeExpr (List inner) = "[" +:+ _makeFieldTypeExpr inner +:+ "]") /\
  _makeFieldTypeExpr (NonNull (List (NonNull (Named "Int")))) = "[Int!]!".
Proof. repeat split. Qed.

(** ** Selection-set renderer *)

Example makeReturnExpr_sample :
  _makeReturnExpr
    (JObj [("a", JBool true); ("b", JObj [("c", JBool true); ("d", JBool false)])])
  = "{a, b {c}}".
Proof. reflexivity. Qed.

Lemma truthy_string_append_l (s t : string) :
  truthy_string s = true -> truthy_string (s +:+ t) = true.
Proof. destruct s; [discriminate | reflexivity]. Qed.

Lemma join_truthy (sep : string) (xs : list string) :
  xs <> [] -> Forall (fun x => truthy_string x = true) xs ->
  truthy_string (join sep xs) = true.
Proof.
  intros Hne Hall. destruct Hall as [| x rest Hx Hrest]; [congruence |].
  destruct rest as [| y rest']; simpl; [exact Hx |].
  now apply truthy_string_append_l.
Qed.

Lemma omap_step {A B : Type} (f : A -> option B) (x : A) (l : list A) :
  omap f (x :: l) = match f x with Some y => y :: omap f l | None => omap f l end.
Proof. reflexivity. Qed.

Lemma filter_truthy_all (xs : list (option string)) :
  Forall (fun x => truthy_string x = true) (filter_truthy xs).
Proof.
  unfold filter_truthy.
  induction xs as [| [s |] xs IH]; rewrite ?omap_step; try constructor; auto.
  destruct (truthy_string s) eqn:Hs; auto.
Qed.

(** On a projection without [null] values and with non-empty field names,
    the renderer joins what the entries contribute, in order, with a comma
    and a space, and wraps a non-empty list in braces. *)
Lemma makeReturnExpr_entries (entries : list (string * JSValue)) :
  Forall (fun entry => snd entry <> JNull /\ fst entry <> "") entries ->
  _makeReturnExpr (JObj entries) =
    match omap entry_expr entries with
    | [] => ""
    | included => "{" +:+ join ", " included +:+ "}"
    end.
Proof.
  intros Hall.
  assert (Hmap : filter_truthy
            (map (fun entry : string * JSValue =>
                    let (field, show) := entry in
                    if typeof_object show then
                      Some (field +:+ " " +:+ _makeReturnExpr show)
                    else if truthy show then Some field else None) entries)
          = omap entry_expr entries).
  { induction Hall as [| [field show] rest [Hnull Hname] Hrest IH]; [reflexivity |].
    unfold filter_truthy in *. rewrite map_cons, !omap_step, IH.
    generalize (omap entry_expr rest). intros tl.
    unfold entry_expr. cbn [fst snd] in *.
    destruct show as [| | b | n | sub]; cbn [typeof_object truthy]; try congruence.
    - destruct b; [| reflexivity].
      destruct field; [congruence | reflexivity].
    - destruct (negb (n =? 0)); [| reflexivity].
      destruct field; [congruence | reflexivity].
    - destruct field; [congruence | reflexivity]. }
  change (_makeReturnExpr (JObj entries)) with
    (let expr := join ", " (filter_truthy
            (map (fun entry : string * JSValue =>
                    let (field, show) := entry in
                    if typeof_object show then
                      Some (field +:+ " " +:+ _makeReturnExpr show)
                    else if truthy show then Some field else None) entries)) in
     if truthy_string expr then "{" +:+ expr +:+ "}" else "").
  cbv zeta. pose proof (filter_truthy_all
            (map (fun entry : string * JSValue =>
                    let (field, show) := entry in
                    if typeof_object show then
                      Some (field +:+ " " +:+ _makeReturnExpr show)
                    else if truthy show then Some field else None) entries)) as Htr.
  rewrite Hmap in *.
  destruct (omap entry_expr entries) as [| x rest] eqn:Hin; [reflexivity |].
  rewrite join_truthy; [reflexivity | congruence | exact Htr].
Qed.

(** C5. The renderer omits an entry whose value is [false], but an entry
    whose value is [null] is not omitted: [typeof null] is ['object'], so
    the entry is rendered as the field name followed by a space and the
    empty rendering of [null]. *)
Theorem makeReturnExpr_null_entry_kept :
  truthy JNull = false /\
  entry_expr ("a", JNull) = None /\
  _makeReturnExpr (JObj [("a", JBool false)]) = "" /\
  _makeReturnExpr (JObj [("a", JNull)]) = "{a }" /\
  _makeReturnExpr
    (JObj [("a", JBool true); ("b", JObj [("c", JBool true); ("d", JNull)])])
  = "{a, b {c, d }}".
Proof. repeat split. Qed.

(** ** Default Projection Selector *)

Lemma scan_fields_first_leaf types (before : list Field) (field : Field)
  (after : list Field) :
  Forall (fun f => isLeafType types (field_type f) = false) before ->
  isLeafType types (field_type field) = true ->
  scan_fields types [] (before ++ field :: after)
  = Some (JObj [(field_name field, JBool true)]).
Proof.
  intros Hbefore Hleaf.
  induction Hbefore as [| f before Hf _ IH]; simpl.
  - now rewrite Hleaf.
  - now rewrite Hf.
Qed.

Lemma scan_fields_no_leaf types (fields : list Field) :
  Forall (fun f => isLeafType types (field_type f) = false) fields ->
  scan_fields types [] fields = None.
Proof.
  induction 1 as [| f fields Hf _ IH]; simpl; [reflexivity |].
  now rewrite Hf.
Qed.

(** C1, amended. On an object type the selector scans the fields in
    declaration order.  The first field whose declared type is itself a
    scalar or an enum, with no wrapper around it, is selected alone as
    [{name: true}] and the scan stops.  When no field has such a type the
    result is [{first: select(namedTypeOf(first))}] for the first declared
    field.  A wrapped leaf type such as [NonNull(Named "ID")] is not a leaf
    type for the scan. *)
Theorem default_projection_object_type types (stack : nat)
  (returnType : string) (fields : list Field) :
  types returnType = GraphQLObjectType fields ->
  (forall before field after,
      fields = before ++ field :: after ->
      Forall (fun f => isLeafType types (field_type f) = false) before ->
      isLeafType types (field_type field) = true ->
      _makeDefaultProjection types (S stack) returnType
      = Normal (JObj [(field_name field, JBool true)])) /\
  (forall first rest,
      fields = first :: rest ->
      Forall (fun f => isLeafType types (field_type f) = false) fields ->
      _makeDefaultProjection types (S stack) returnType
      = (sub ← _makeDefaultProjection types stack
                 (getNamedType (field_type first));
         Normal (JObj [(field_name first, sub)]))) /\
  (forall inner,
      isLeafType types (NonNull inner) = false /\
      isLeafType types (List inner) = false).
Proof.
  intros Htype. repeat split.
  - intros before field after -> Hbefore Hleaf.
    cbn [_makeDefaultProjection]. rewrite Htype.
    now rewrite scan_fields_first_leaf.
  - intros first rest -> Hnone.
    cbn [_makeDefaultProjection]. rewrite Htype.
    now rewrite scan_fields_no_leaf.
Qed.

Lemma default_projection_object_type_witness :
  _makeDefaultProjection user_types 2 "User"
  = Normal (JObj [("name", JBool true)]).
Proof.
  apply (proj1 (default_projection_object_type user_types 1 "User" user_fields
                  eq_refl)
           [ {| field_name := "id"; field_args := [];
                field_type := NonNull (Named "ID") |} ]
           {| field_name := "name"; field_args := [];
              field_type := Named "String" |}
           []).
  - reflexivity.
  - repeat constructor.
  - reflexivity.
Defined.

(** The claim as worded fails on [type User { id: ID!  name: String }]:
    [id] resolves to the scalar [ID], so the wording selects [{id: true}],
    while the scan passes over [id] and selects [name]. *)
Lemma default_projection_wrapped_leaf_counterexample :
  resolves_to_leaf user_types
    {| field_name := "id"; field_args := []; field_type := NonNull (Named "ID") |}
  = true /\
  spec_select user_types 1 user_fields = Normal (JObj [("id", JBool true)]) /\
  _makeDefaultProjection user_types 2 "User" <> spec_select user_types 1 user_fields.
Proof. repeat split. discriminate. Qed.

(** An object type whose only field has a wrapped leaf type is handled by
    the descent into the first field, which selects the field with an empty
    sub-projection. *)
Example default_projection_only_wrapped_leaf :
  _makeDefaultProjection user_types 2 "Token" = Normal (JObj [("id", JObj [])]) /\
  _makeReturnExpr (JObj [("id", JObj [])]) = "{id }".
Proof. split; reflexivity. Qed.

(** ** Operation Synthesizer: [_connect] *)

Lemma make_operation_throws kind types stack (field : Field) (e : JSError) :
  _makeDefaultProjection types stack (getNamedType (field_type field)) = Throw e ->
  make_operation kind types stack field = Throw e.
Proof. intros H. unfold make_operation. now rewrite H. Qed.

Lemma make_operation_normal kind types stack (field : Field) (op : Operation) :
  make_operation kind types stack field = Normal op ->
  op_kind op = kind /\ op_field op = field /\
  _makeDefaultProjection types stack (getNamedType (field_type field))
  = Normal (defaultProjections op).
Proof.
  unfold make_operation.
  destruct (_makeDefaultProjection types stack (getNamedType (field_type field)));
    [| discriminate].
  intros [= <-]. auto.
Qed.

(** A loop of [_connect] does not get past a field whose default projection
    throws. *)
Lemma install_throws kind types stack (fields : list Field) (field : Field) :
  field ∈ fields ->
  (exists e, make_operation kind types stack field = Throw e) ->
  forall this, exists e, install kind types stack fields this = Throw e.
Proof.
  intros Hin Hthrow.
  induction Hin as [field rest | field other rest Hin IH]; intros this0; cbn [install].
  - destruct Hthrow as [e ->]. now exists e.
  - destruct (make_operation kind types stack other) as [op | e']; [| now exists e'].
    apply IH, Hthrow.
Qed.

(** A loop of [_connect] completes when every default projection does. *)
Lemma install_normal kind types stack (fields : list Field) :
  (forall field, field ∈ fields ->
                 exists op, make_operation kind types stack field = Normal op) ->
  forall this, exists this', install kind types stack fields this = Normal this'.
Proof.
  induction fields as [| head rest IH]; intros Hall this0; cbn [install].
  - now exists this0.
  - destruct (Hall head) as [op ->]; [apply elem_of_cons; now left |].
    apply IH. intros field Hin. apply Hall, elem_of_cons. now right.
Qed.

(** A loop of [_connect] touches the names of its fields only. *)
Lemma install_other kind types stack (fields : list Field) :
  forall this this' (name : string),
    install kind types stack fields this = Normal this' ->
    name ∉ field_name <$> fields ->
    members this' !! name = members this !! name.
Proof.
  induction fields as [| head rest IH]; intros this0 this' name Hrun Hname.
  - cbn in Hrun. now injection Hrun as <-.
  - cbn [install] in Hrun.
    destruct (make_operation kind types stack head) as [op | e]; [| discriminate].
    rewrite fmap_cons in Hname. apply not_elem_of_cons in Hname as [Hne Hname].
    rewrite (IH _ _ _ Hrun Hname). cbn. now apply lookup_insert_ne.
Qed.

(** Under a name it installs, a loop of [_connect] leaves the operation of
    the last field of that name. *)
Lemma install_last kind types stack (before : list Field) (field : Field)
  (after : list Field) :
  forall this this',
    install kind types stack (before ++ field :: after) this = Normal this' ->
    field_name field ∉ field_name <$> after ->
    exists op, members this' !! field_name field = Some op /\
               make_operation kind types stack field = Normal op.
Proof.
  induction before as [| head before IH]; intros this0 this' Hrun Hlast.
  - cbn [app install] in Hrun.
    destruct (make_operation kind types stack field) as [op | e]; [| discriminate].
    exists op. split; [| reflexivity].
    rewrite (install_other _ _ _ _ _ _ _ Hrun Hlast). cbn.
    apply lookup_insert_eq.
  - cbn [app install] in Hrun.
    destruct (make_operation kind types stack head) as [op | e]; [| discriminate].
    eapply IH; eauto.
Qed.

(** The names a loop of [_connect] adds are the names of its fields. *)
Lemma install_dom kind types stack (fields : list Field) :
  forall this this',
    install kind types stack fields this = Normal this' ->
    dom (members this') = dom (members this) ∪ list_to_set (field_name <$> fields).
Proof.
  induction fields as [| head rest IH]; intros this0 this' Hrun.
  - cbn in Hrun. injection Hrun as <-.
    rewrite fmap_nil, list_to_set_nil. now rewrite (right_id_L ∅ (∪)).
  - cbn [install] in Hrun.
    destruct (make_operation kind types stack head) as [op | e]; [| discriminate].
    rewrite (IH _ _ Hrun), fmap_cons, list_to_set_cons. cbn.
    rewrite dom_insert_L, (comm_L (∪) {[field_name head]} (dom (members this0))).
    now rewrite (assoc_L (∪)).
Qed.

(** Every operation a loop of [_connect] adds is of the loop's kind. *)
Lemma install_kind kind types stack (fields : list Field) :
  forall this this' name op,
    install kind types stack fields this = Normal this' ->
    members this' !! name = Some op ->
    members this !! name = Some op \/
    (op_kind op = kind /\ op_field op ∈ fields /\ field_name (op_field op) = name).
Proof.
  induction fields as [| head rest IH]; intros this0 this' name op Hrun Hop.
  - cbn in Hrun. injection Hrun as <-. now left.
  - cbn [install] in Hrun.
    destruct (make_operation kind types stack head) as [op0 | e] eqn:Hmk;
      [| discriminate].
    destruct (IH _ _ _ _ Hrun Hop) as [Hold | (Hk & Hin & Hn)].
    + cbn in Hold. apply lookup_insert_Some in Hold as [[<- <-] | [_ Hold]].
      * right. apply make_operation_normal in Hmk as (Hk & Hf & _).
        rewrite Hf. repeat split; [exact Hk | apply elem_of_cons; now left].
      * now left.
    + right. repeat split; auto. apply elem_of_cons. now right.
Qed.

(** With the guard of [src/index.js], a schema without a mutation type is
    connected by the query loop alone: when every query field has a default
    projection the connection completes, and the operations are those of the
    query fields. *)
Lemma connect_without_mutation stack (introspected : Schema) (this : GraphQLClient) :
  mutationType introspected = None ->
  _connect stack introspected this
  = install Query (typeMap introspected) stack (queryType introspected)
      (set_schema introspected this) /\
  ((forall field, field ∈ queryType introspected ->
       exists p, _makeDefaultProjection (typeMap introspected) stack
                   (getNamedType (field_type field)) = Normal p) ->
   exists this', _connect stack introspected this = Normal this' /\
     dom (members this')
     = dom (members this) ∪ list_to_set (field_name <$> queryType introspected)).
Proof.
  intros Hnone. unfold _connect. rewrite Hnone.
  assert (Heq : forall c : Completion GraphQLClient,
             (this0 ← c; Normal this0) = c) by (now intros [|]).
  rewrite Heq. split; [reflexivity |].
  intros Hall.
  destruct (install_normal Query (typeMap introspected) stack
              (queryType introspected)) with (this := set_schema introspected this)
    as [this' Hrun].
  { intros field Hin. destruct (Hall field Hin) as [p Hp].
    unfold make_operation. rewrite Hp. eauto. }
  exists this'. split; [exact Hrun |].
  now rewrite (install_dom _ _ _ _ _ _ Hrun).
Qed.

(** C4. The older revision has no guard: on every schema without a mutation
    type its [_connect] throws, whatever the query fields are. *)
Theorem older_connect_without_mutation_throws stack (introspected : Schema)
  (this : GraphQLClient) :
  mutationType introspected = None ->
  exists e, Older._connect stack introspected this = Throw e.
Proof.
  intros Hnone. unfold Older._connect. rewrite Hnone.
  destruct (install Query _ _ _ _) as [this' | e]; cbn; eauto.
Qed.

Lemma older_connect_without_mutation_throws_witness :
  exists e, Older._connect 8 (user_schema None) (constructor sample_logger 100)
            = Throw e.
Proof. apply older_connect_without_mutation_throws. reflexivity. Defined.

(** Both revisions of [_connect] fail on a schema with a query or mutation
    field whose default projection throws. *)
Lemma connect_throws_on_field stack (introspected : Schema) (client : GraphQLClient)
  (field : Field) :
  field ∈ queryType introspected \/
  (exists fields, mutationType introspected = Some fields /\ field ∈ fields) ->
  (exists e, _makeDefaultProjection (typeMap introspected) stack
               (getNamedType (field_type field)) = Throw e) ->
  (exists e, _connect stack introspected client = Throw e) /\
  (exists e, Older._connect stack introspected client = Throw e).
Proof.
  intros Hwhere [e He].
  assert (Hmk : forall kind,
             exists e', make_operation kind (typeMap introspected) stack field
                        = Throw e').
  { intros kind. exists e. now apply make_operation_throws. }
  unfold _connect, Older._connect.
  destruct Hwhere as [Hin | (fields & Hmut & Hin)].
  - destruct (install_throws Query (typeMap introspected) stack
                (queryType introspected) field Hin (Hmk Query)
                (set_schema introspected client)) as [e' ->].
    cbn. eauto.
  - rewrite Hmut.
    destruct (install Query _ _ _ _) as [client1 | e1]; cbn; [| eauto].
    split; apply install_throws with (field := field); auto.
Qed.

(** C9. On an object type without fields the selector throws a [TypeError]
    (it reads [name] of an undefined first field) whenever it has a frame to
    run in, and never returns a projection; [_connect], in both revisions,
    fails on a schema with a query or mutation field of such a return
    type. *)
Theorem default_projection_no_fields_throws types (returnType : string) :
  types returnType = GraphQLObjectType [] ->
  (forall stack,
      _makeDefaultProjection types (S stack) returnType
      = Throw (TypeError "Cannot read property 'name' of undefined")) /\
  (forall stack, exists e, _makeDefaultProjection types stack returnType = Throw e) /\
  (forall stack introspected client (field : Field),
      typeMap introspected = types ->
      getNamedType (field_type field) = returnType ->
      field ∈ queryType introspected \/
      (exists fields, mutationType introspected = Some fields /\ field ∈ fields) ->
      (exists e, _connect stack introspected client = Throw e) /\
      (exists e, Older._connect stack introspected client = Throw e)).
Proof.
  intros Htype.
  assert (Hone : forall stack,
             _makeDefaultProjection types (S stack) returnType
             = Throw (TypeError "Cannot read property 'name' of undefined")).
  { intros stack. cbn [_makeDefaultProjection]. now rewrite Htype. }
  assert (Hany : forall stack,
             exists e, _makeDefaultProjection types stack returnType = Throw e).
  { intros [| stack]; [cbn; eauto | rewrite Hone; eauto]. }
  split; [exact Hone |]. split; [exact Hany |].
  intros stack introspected client field Htypes Hret Hwhere.
  apply connect_throws_on_field with (field := field); [exact Hwhere |].
  rewrite Htypes, Hret. apply Hany.
Qed.

Lemma default_projection_no_fields_throws_witness :
  _makeDefaultProjection user_types 3 "Empty"
  = Throw (TypeError "Cannot read property 'name' of undefined").
Proof.
  apply (proj1 (default_projection_no_fields_throws user_types "Empty" eq_refl)).
Defined.

(** C10. When the named return type of a field is not an object type (a
    scalar, an enum, but also an interface, a union or an input object),
    the selector returns the empty projection, the operation made for the
    field stores it as its default, and a call without a projection of the
    caller's renders the empty selection set into the document. *)
Theorem default_projection_not_object types (stack : nat) (kind : OperationKind)
  (field : Field) :
  (forall fields,
      types (getNamedType (field_type field)) <> GraphQLObjectType fields) ->
  _makeDefaultProjection types (S stack) (getNamedType (field_type field))
  = Normal (JObj []) /\
  exists op,
    make_operation kind types (S stack) field = Normal op /\
    defaultProjections op = JObj [] /\
    forall projections,
      projections = JUndefined \/ projections = JNull \/ projections = JObj [] ->
      _makeReturnExpr (effective_projections op projections) = "" /\
      document_text op (effective_projections op projections)
      = keyword kind +:+ " (" +:+ queryArgDeclare op +:+ ") { "
          +:+ field_name field +:+ " (" +:+ queryArgs op +:+ ") " +:+ "" +:+ " }".
Proof.
  intros Hnot.
  assert (Hsel : _makeDefaultProjection types (S stack)
                   (getNamedType (field_type field)) = Normal (JObj [])).
  { cbn [_makeDefaultProjection].
    destruct (types (getNamedType (field_type field))) eqn:Hty; try reflexivity.
    now destruct (Hnot fields). }
  split; [exact Hsel |].
  unfold make_operation. rewrite Hsel. cbn.
  eexists. split; [reflexivity |]. split; [reflexivity |].
  intros projections [-> | [-> | ->]]; split; reflexivity.
Qed.

Lemma default_projection_not_object_witness :
  _makeDefaultProjection user_types 2 (getNamedType (List (NonNull (Named "Node"))))
  = Normal (JObj []).
Proof.
  apply (proj1 (default_projection_not_object user_types 1 Query
                  {| field_name := "nodes"; field_args := [];
                     field_type := List (NonNull (Named "Node")) |}
                  ltac:(intros fields; discriminate))).
Defined.

(** C7. When the query type and the mutation type both define a field of
    one name, the connected client holds one operation under that name, and
    it is the operation made for the mutation type's field: of kind
    mutation, closing over that field, and rendering a mutation document. *)
Theorem connect_collision_mutation_wins stack (introspected : Schema)
  (this this' : GraphQLClient) (query_field mutation_field : Field)
  (mutation_fields : list Field) :
  _connect stack introspected this = Normal this' ->
  query_field ∈ queryType introspected ->
  mutationType introspected = Some mutation_fields ->
  mutation_field ∈ mutation_fields ->
  NoDup (field_name <$> mutation_fields) ->
  field_name query_field = field_name mutation_field ->
  exists op,
    members this' !! field_name query_field = Some op /\
    make_operation Mutation (typeMap introspected) stack mutation_field = Normal op /\
    op_kind op = Mutation /\ op_field op = mutation_field /\
    forall projections,
      document_text op projections
      = "mutation (" +:+ queryArgDeclare op +:+ ") { "
          +:+ field_name mutation_field +:+ " (" +:+ queryArgs op +:+ ") "
          +:+ _makeReturnExpr projections +:+ " }".
Proof.
  intros Hrun _ Hmut Hin Hnodup Hname.
  unfold _connect in Hrun. rewrite Hmut in Hrun.
  destruct (install Query _ _ _ _) as [this1 | e]; [| discriminate].
  cbn in Hrun.
  apply list_elem_of_split in Hin as (before & after & ->).
  rewrite fmap_app, fmap_cons in Hnodup.
  apply NoDup_app in Hnodup as (_ & _ & Hnodup).
  apply NoDup_cons in Hnodup as [Hlast _].
  destruct (install_last _ _ _ _ _ _ _ _ Hrun Hlast) as (op & Hop & Hmk).
  exists op. rewrite Hname.
  destruct (make_operation_normal _ _ _ _ _ Hmk) as (Hk & Hf & _).
  repeat split; auto.
  intros projections. unfold document_text. now rewrite Hk, Hf.
Qed.

Lemma connect_collision_mutation_wins_witness :
  exists op,
    members (match _connect 4 (user_schema (Some ping_mutation))
                     (constructor sample_logger 100) with
             | Normal c => c
             | Throw _ => constructor sample_logger 100
             end) !! "ping" = Some op /\
    op_kind op = Mutation.
Proof.
  destruct (connect_collision_mutation_wins 4 (user_schema (Some ping_mutation))
              (constructor sample_logger 100)
              (match _connect 4 (user_schema (Some ping_mutation))
                       (constructor sample_logger 100) with
               | Normal c => c
               | Throw _ => constructor sample_logger 100
               end)
              {| field_name := "ping"; field_args := []; field_type := Named "String" |}
              {| field_name := "ping"; field_args := []; field_type := Named "String" |}
              ping_mutation)
    as (op & Hop & _ & Hkind & _).
  - reflexivity.
  - apply elem_of_cons. right. apply elem_of_cons. now left.
  - reflexivity.
  - apply elem_of_cons. now left.
  - repeat constructor. apply not_elem_of_nil.
  - reflexivity.
  - exists op. split; [exact Hop | exact Hkind].
Defined.

(** ** Transport Session Manager *)

Lemma constructed_app (evs evs' : list Event) :
  constructed (evs ++ evs') = constructed evs ++ constructed evs'.
Proof. unfold constructed. apply omap_app. Qed.

(** One call of [_ensureClient], from a counter below 2^53. *)
Lemma ensureClient_step (w : World) :
  counter (this w) < 2 ^ 53 ->
  (resetStoreEvery (this w) <= counter (this w) ->
   constructed (events (_ensureClient w))
   = constructed (events w) ++ [length (constructed (events w))] /\
   apollo (this (_ensureClient w)) = Some (length (constructed (events w))) /\
   counter (this (_ensureClient w)) = 1) /\
  (counter (this w) < resetStoreEvery (this w) ->
   constructed (events (_ensureClient w)) = constructed (events w) /\
   apollo (this (_ensureClient w)) = apollo (this w) /\
   counter (this (_ensureClient w)) = counter (this w) + 1) /\
  resetStoreEvery (this (_ensureClient w)) = resetStoreEvery (this w).
Proof.
  intros Hsafe. unfold _ensureClient.
  destruct (Z.leb_spec (resetStoreEvery (this w)) (counter (this w))) as [Hge | Hlt];
    cbn.
  - repeat split; try lia. now rewrite constructed_app.
  - unfold js_increment.
    destruct (Z.ltb_spec (counter (this w)) (2 ^ 53)); [| lia].
    repeat split; lia.
Qed.

(** After [n + 1] calls from a fresh client, with [n = q * t + r] and
    [r < t]: the counter is [r + 1] and the instances [0 .. q] were
    constructed. *)
Lemma ensure_times_state (lg : Logger) (t : Z) (n : nat) :
  0 < t <= MAX_SAFE_INTEGER ->
  exists q r : Z,
    0 <= q /\ 0 <= r < t /\ Z.of_nat n = q * t + r /\
    counter (this (ensure_times (S n) {| this := constructor lg t; events := [] |}))
    = r + 1 /\
    constructed
      (events (ensure_times (S n) {| this := constructor lg t; events := [] |}))
    = seq 0 (Z.to_nat (q + 1)) /\
    resetStoreEvery
      (this (ensure_times (S n) {| this := constructor lg t; events := [] |}))
    = t.
Proof.
  intros Ht. unfold MAX_SAFE_INTEGER in Ht.
  induction n as [| n (q & r & Hq & Hr & Hn & Hcounter & Hmade & Hth)].
  - exists 0, 0. cbn [ensure_times].
    destruct (ensureClient_step {| this := constructor lg t; events := [] |})
      as (Hnew & _ & Hkeep); [cbn; unfold MAX_SAFE_INTEGER; lia |].
    destruct Hnew as (Hmade & _ & Hcounter); [cbn; unfold MAX_SAFE_INTEGER; lia |].
    rewrite Hmade, Hcounter, Hkeep. cbn. repeat split; lia.
  - set (w := ensure_times (S n) {| this := constructor lg t; events := [] |}) in *.
    change (ensure_times (S (S n)) {| this := constructor lg t; events := [] |})
      with (_ensureClient w).
    destruct (ensureClient_step w) as (Hnew & Hold & Hkeep); [lia |].
    rewrite Hkeep, Hth.
    destruct (Z.le_gt_cases t (r + 1)) as [Hfull | Hroom].
    + exists (q + 1), 0.
      destruct Hnew as (Hmade' & _ & Hcounter'); [lia |].
      rewrite Hmade', Hcounter', Hmade.
      repeat split; try lia.
      rewrite length_seq.
      replace (Z.to_nat (q + 1 + 1)) with (S (Z.to_nat (q + 1))) by lia.
      now rewrite seq_S.
    + exists q, (r + 1).
      destruct Hold as (Hmade' & _ & Hcounter'); [lia |].
      rewrite Hmade', Hcounter', Hmade, Hcounter.
      repeat split; lia.
Qed.

(** C3, amended. For a threshold [t] with [0 < t <= Number.MAX_SAFE_INTEGER],
    [n] calls of [_ensureClient] on a fresh client construct
    [ceil(n / t)] transport clients, all distinct, the first call
    constructing one; a call made with the counter at or above the
    threshold constructs an instance and leaves the counter at 1 (reset to
    0, then incremented), and any other call constructs nothing and adds 1
    to the counter. *)
Theorem ensureClient_recycling (lg : Logger) (t : Z) (n : nat) :
  0 < t <= MAX_SAFE_INTEGER ->
  let fresh := {| this := constructor lg t; events := [] |} in
  let made := fun k => constructed (events (ensure_times k fresh)) in
  let before := ensure_times n fresh in
  let after := _ensureClient before in
  Z.of_nat (length (made n)) = (Z.of_nat n + t - 1) / t /\
  NoDup (made n) /\
  made 1%nat = [0%nat] /\
  (t <= counter (this before) ->
   made (S n) = made n ++ [length (made n)] /\
   apollo (this after) = Some (length (made n)) /\
   counter (this after) = 1) /\
  (counter (this before) < t ->
   made (S n) = made n /\
   apollo (this after) = apollo (this before) /\
   counter (this after) = counter (this before) + 1).
Proof.
  intros Ht fresh made before after.
  assert (Hstate : counter (this before) < 2 ^ 53 /\
                   resetStoreEvery (this before) = t /\
                   Z.of_nat (length (made n)) = (Z.of_nat n + t - 1) / t /\
                   NoDup (made n)).
  { subst made before. destruct n as [| n].
    - cbn. unfold MAX_SAFE_INTEGER in *. repeat split; try lia.
      + symmetry. apply Z.div_small. lia.
      + constructor.
    - destruct (ensure_times_state lg t n Ht)
        as (q & r & Hq & Hr & Hn & Hcounter & Hmade & Hth).
      fold fresh in Hcounter, Hmade, Hth. cbv beta.
      rewrite Hcounter, Hmade, Hth, length_seq.
      unfold MAX_SAFE_INTEGER in *. repeat split; try lia.
      + rewrite Z2Nat.id by lia. apply Z.div_unique with (r := r); lia.
      + apply NoDup_ListNoDup, seq_NoDup. }
  destruct Hstate as (Hsafe & Hth & Hcount & Hnodup).
  split; [exact Hcount |]. split; [exact Hnodup |].
  split.
  { subst made. cbv beta.
    destruct (ensure_times_state lg t 0 Ht)
      as (q & r & Hq & Hr & Hn & _ & Hmade & _).
    fold fresh in Hmade. rewrite Hmade.
    assert (q = 0) by nia. now subst q. }
  destruct (ensureClient_step before Hsafe) as (Hnew & Hold & _).
  rewrite Hth in Hnew, Hold. split; assumption.
Qed.

Lemma ensureClient_recycling_witness :
  Z.of_nat (length (constructed (events
     (ensure_times 7 {| this := constructor sample_logger 3; events := [] |}))))
  = (Z.of_nat 7 + 3 - 1) / 3.
Proof.
  apply (ensureClient_recycling sample_logger 3 7).
  unfold MAX_SAFE_INTEGER. lia.
Defined.

(** The claim as worded covers every positive threshold; with the threshold
    2^53, one above the sentinel the counter starts at, the first call
    constructs nothing, where [ceil(1 / t)] is 1. *)
Lemma ensureClient_threshold_above_sentinel_counterexample :
  0 < 2 ^ 53 /\
  constructed (events (ensure_times 1
     {| this := constructor sample_logger (2 ^ 53); events := [] |})) = [] /\
  apollo (this (ensure_times 1
     {| this := constructor sample_logger (2 ^ 53); events := [] |})) = None /\
  Z.of_nat (length (constructed (events (ensure_times 1
     {| this := constructor sample_logger (2 ^ 53); events := [] |}))))
  <> (Z.of_nat 1 + 2 ^ 53 - 1) / 2 ^ 53.
Proof. repeat split. vm_compute. discriminate. Qed.

(** ** A synthesized operation: the document *)

(** [user(id: ID!): User] called without a projection. *)
Example user_document :
  (op ← make_operation Query user_types 4
          {| field_name := "user";
             field_args := [ {| arg_name := "id"; arg_type := NonNull (Named "ID") |} ];
             field_type := Named "User" |};
   Normal (document_text op (effective_projections op JUndefined)))
  = Normal "query ($id: ID!) { user (id: $id) {name} }".
Proof. reflexivity. Qed.

(** A field without arguments gets empty parentheses in its document. *)
Example ping_document :
  document_text ping_operation (effective_projections ping_operation JUndefined)
  = "query () { ping ()  }".
Proof. reflexivity. Qed.

(** An operation of the older revision is the present one called without
    [options]. *)
Lemma older_invoke ext op caller_logger variables projections (w : World) :
  Older.invoke ext op caller_logger variables projections w
  = invoke ext op caller_logger variables projections JUndefined w.
Proof. reflexivity. Qed.

(** ** A synthesized operation: failures *)

Lemma server_error_iff (e : JSError) :
  server_error e = true <->
  exists ne, networkError e = Some ne /\
             (statusCode ne = None \/ statusCode ne = Some 0 \/
              exists code, statusCode ne = Some code /\ 500 <= code).
Proof.
  unfold server_error. split.
  - destruct (networkError e) as [ne |]; [| discriminate].
    intros H. exists ne. split; [reflexivity |].
    destruct (statusCode ne) as [code |]; [| now left].
    apply orb_true_iff in H as [H | H].
    + right. left. f_equal. lia.
    + right. right. exists code. split; [reflexivity | lia].
  - intros (ne & -> & [-> | [-> | (code & -> & Hcode)]]); try reflexivity.
    apply orb_true_iff. right. lia.
Qed.

(** The transport's throw is the throw of the guarded block. *)
Lemma attempt_transport_throw ext op lg variables projections options w id document e :
  apollo (this (_ensureClient w)) = Some id ->
  gql ext (document_text op projections) = Normal document ->
  options <> JNull ->
  transport ext {| req_instance := id; req_kind := op_kind op;
                   req_document := document; req_variables := variables;
                   req_options := options; req_logger := logger_name lg |}
  = Throw e ->
  snd (attempt ext op lg variables projections options w) = Throw e.
Proof.
  intros Hid Hgql Hopt Hthrow. unfold attempt. rewrite Hid, Hgql.
  destruct options; try congruence; cbn [snd]; now rewrite Hthrow.
Qed.

(** C2, amended. When the guarded part of a call throws [e], as it does
    when the transport throws [e]: if [e] carries a network error whose
    status code is missing, is 0, or is at least 500, the effective
    logger's [fail] is called with the code ['_failed_api_server_error']
    and [e], and the call completes as [fail] does, returning [undefined]
    when [fail] returns; if [e] carries no network error, or one with a
    status code other than 0 and below 500, [e] is thrown to the caller
    unchanged and no logger is called. *)
Theorem invoke_failure_classification (ext : Externals) (op : Operation)
  (caller_logger : option Logger) (variables projections options : JSValue)
  (w : World) (e : JSError) :
  let lg := match caller_logger with Some l => l | None => logger (this w) end in
  let guarded :=
    attempt ext op lg variables (effective_projections op projections)
      (match options with JUndefined => JObj [] | _ => options end) w in
  snd guarded = Throw e ->
  ((exists ne, networkError e = Some ne /\
               (statusCode ne = None \/ statusCode ne = Some 0 \/
                exists code, statusCode ne = Some code /\ 500 <= code)) ->
   invoke ext op caller_logger variables projections options w
   = ({| this := this (fst guarded);
         events := events (fst guarded) ++
                   [LoggerFail (logger_name lg) "_failed_api_server_error" e] |},
      _ ← fail lg "_failed_api_server_error" e; Normal (Found JUndefined))) /\
  ((networkError e = None \/
    exists ne code, networkError e = Some ne /\ statusCode ne = Some code /\
                    code <> 0 /\ code < 500) ->
   invoke ext op caller_logger variables projections options w
   = (fst guarded, Throw e)).
Proof.
  intros lg guarded Hthrow.
  assert (Hguarded : guarded = (fst guarded, Throw e))
    by (rewrite <- Hthrow; now destruct guarded).
  split.
  - intros Hserver. apply server_error_iff in Hserver.
    unfold invoke. fold lg. fold guarded. rewrite Hguarded. cbn [fst].
    now rewrite Hserver.
  - intros Hclient.
    assert (Hnot : server_error e = false).
    { unfold server_error.
      destruct Hclient as [-> | (ne & code & -> & -> & Hz & Hlt)]; [reflexivity |].
      apply orb_false_iff. split; lia. }
    unfold invoke. fold lg. fold guarded. rewrite Hguarded. cbn [fst].
    now rewrite Hnot.
Qed.

Lemma invoke_failure_classification_witness :
  snd (invoke (failing_externals (server_failure (Some 400))) user_operation None
         user_variables JUndefined JUndefined (fresh_world 100))
  = Throw (server_failure (Some 400)) /\
  snd (invoke (failing_externals (server_failure (Some 503))) user_operation None
         user_variables JUndefined JUndefined (fresh_world 100))
  = Normal (Found JUndefined).
Proof.
  split.
  - rewrite (proj2 (invoke_failure_classification
                      (failing_externals (server_failure (Some 400)))
                      user_operation None user_variables JUndefined JUndefined
                      (fresh_world 100) (server_failure (Some 400)) eq_refl)).
    + reflexivity.
    + right. exists {| statusCode := Some 400 |}, 400. repeat split; lia.
  - rewrite (proj1 (invoke_failure_classification
                      (failing_externals (server_failure (Some 503)))
                      user_operation None user_variables JUndefined JUndefined
                      (fresh_world 100) (server_failure (Some 503)) eq_refl)).
    + reflexivity.
    + exists {| statusCode := Some 503 |}. split; [reflexivity |].
      right. right. exists 503. split; [reflexivity | lia].
Defined.

(** The claim as worded fails on a network error with status code 0, thrown
    by a link of the chain to a call of [user(id: ID!)], whose document
    [query ($id: ID!) { user (id: $id) {name} }] the [gql] tag accepts: the
    code is present and below 500, so the wording has the error thrown
    back to the caller, while the call hands it to the logger's [fail] and
    returns. *)
Lemma invoke_status_zero_counterexample :
  spec_server_error (server_failure (Some 0)) = false /\
  gql (failing_externals (server_failure (Some 0)))
    (document_text user_operation (effective_projections user_operation JUndefined))
  = Normal "query ($id: ID!) { user (id: $id) {name} }" /\
  snd (attempt (failing_externals (server_failure (Some 0))) user_operation
         sample_logger user_variables (JObj [("name", JBool true)]) (JObj [])
         (fresh_world 100))
  = Throw (server_failure (Some 0)) /\
  snd (invoke (failing_externals (server_failure (Some 0))) user_operation None
         user_variables JUndefined JUndefined (fresh_world 100))
  = Normal (Found JUndefined) /\
  snd (invoke (failing_externals (server_failure (Some 0))) user_operation None
         user_variables JUndefined JUndefined (fresh_world 100))
  <> Throw (server_failure (Some 0)) /\
  events (fst (invoke (failing_externals (server_failure (Some 0)))
                 user_operation None user_variables JUndefined JUndefined
                 (fresh_world 100)))
  = [ NewApolloClient 0;
      Executed {| req_instance := 0; req_kind := Query;
                  req_document := "query ($id: ID!) { user (id: $id) {name} }";
                  req_variables := user_variables; req_options := JObj [];
                  req_logger := "quiet" |};
      LoggerFail "quiet" "_failed_api_server_error" (server_failure (Some 0)) ].
Proof. repeat split. discriminate. Qed.

(** ** A synthesized operation: the effective projection *)

Lemma ensureClient_members (w : World) :
  members (this (_ensureClient w)) = members (this w).
Proof.
  unfold _ensureClient.
  now destruct (resetStoreEvery (this w) <=? counter (this w)).
Qed.

Lemma attempt_members ext op lg variables projections options (w : World) :
  members (this (fst (attempt ext op lg variables projections options w)))
  = members (this w).
Proof.
  unfold attempt.
  destruct (apollo (this (_ensureClient w))); [| apply ensureClient_members].
  destruct (gql ext (document_text op projections)); [| apply ensureClient_members].
  destruct options; apply ensureClient_members.
Qed.

(** When the guarded block gets as far as the transport, the request it
    sends is on record. *)
Lemma attempt_executed ext op lg variables projections options (w : World)
  id document :
  apollo (this (_ensureClient w)) = Some id ->
  gql ext (document_text op projections) = Normal document ->
  options <> JNull ->
  fst (attempt ext op lg variables projections options w)
  = {| this := this (_ensureClient w);
       events := events (_ensureClient w) ++
                 [Executed {| req_instance := id; req_kind := op_kind op;
                              req_document := document;
                              req_variables := variables;
                              req_options := options;
                              req_logger := logger_name lg |}] |}.
Proof.
  intros Hid Hgql Hopt. unfold attempt. rewrite Hid, Hgql.
  destruct options; try congruence; reflexivity.
Qed.

(** A call adds at most a report to the logger to what its guarded block
    did. *)
Lemma invoke_after_attempt ext op caller_logger variables projections options
  (w : World) :
  let outcome :=
    attempt ext op
      (match caller_logger with Some l => l | None => logger (this w) end)
      variables (effective_projections op projections)
      (match options with JUndefined => JObj [] | _ => options end) w in
  this (fst (invoke ext op caller_logger variables projections options w))
  = this (fst outcome) /\
  exists rest,
    events (fst (invoke ext op caller_logger variables projections options w))
    = events (fst outcome) ++ rest.
Proof.
  intros outcome. unfold invoke. fold outcome.
  destruct outcome as [w0 [value | e]]; cbn [fst].
  - split; [reflexivity |]. exists []. now rewrite app_nil_r.
  - destruct (server_error e); cbn [fst this events].
    + split; [reflexivity |]. eauto.
    + split; [reflexivity |]. exists []. now rewrite app_nil_r.
Qed.

(** C8. A call builds its document from the caller's projection when that
    is a non-empty mapping, and from the operation's stored default
    projection when the caller's is absent, [null] or an empty mapping: the
    [gql] tag is consulted on the text rendered from that projection only,
    and the request that reaches the transport carries the document made
    from it.  No call changes the operations the client holds, nor their
    stored default projections. *)
Theorem invoke_effective_projection (ext : Externals) (op : Operation)
  (caller_logger : option Logger) (variables projections options : JSValue)
  (w : World) :
  (forall entry rest,
      projections = JObj (entry :: rest) ->
      effective_projections op projections = projections) /\
  (projections = JUndefined \/ projections = JNull \/ projections = JObj [] ->
   effective_projections op projections = defaultProjections op) /\
  (forall gql',
      gql' (document_text op (effective_projections op projections))
      = gql ext (document_text op (effective_projections op projections)) ->
      invoke {| gql := gql'; transport := transport ext |} op caller_logger
        variables projections options w
      = invoke ext op caller_logger variables projections options w) /\
  (forall id document,
      apollo (this (_ensureClient w)) = Some id ->
      gql ext (document_text op (effective_projections op projections))
      = Normal document ->
      options <> JNull ->
      exists req rest,
        events (fst (invoke ext op caller_logger variables projections options w))
        = events (_ensureClient w) ++ Executed req :: rest /\
        req_instance req = id /\ req_document req = document) /\
  members (this (fst (invoke ext op caller_logger variables projections options w)))
  = members (this w).
Proof.
  split; [now intros entry rest -> |].
  split; [now intros [-> | [-> | ->]] |].
  split.
  { intros gql' Hsame. unfold invoke, attempt. cbn [gql transport].
    now rewrite Hsame. }
  destruct (invoke_after_attempt ext op caller_logger variables projections
              options w) as [Hthis [rest Hevents]].
  split.
  - intros id document Hid Hgql Hopt.
    rewrite Hevents.
    rewrite (attempt_executed _ _ _ _ _ _ _ id document Hid Hgql)
      by now destruct options.
    cbn [events]. rewrite <- app_assoc. cbn [app]. eauto.
  - rewrite Hthis. apply attempt_members.
Qed.

(** * Further properties *)

(** ** Type Expression Renderer *)

Lemma append_char_inj (s t : string) (c : ascii) :
  s +:+ String c "" = t +:+ String c "" -> s = t.
Proof.
  revert t. induction s as [| a s IH]; intros [| b t] H; cbn in H.
  - reflexivity.
  - injection H as _ H. now destruct t.
  - injection H as _ H. now destruct s.
  - injection H as -> H. f_equal. now apply IH.
Qed.

Lemma last_char_append (s : string) (c : ascii) :
  last_char (s +:+ String c "") = Some c.
Proof.
  induction s as [| a s IH]; [reflexivity |].
  change (String a s +:+ String c "") with (String a (s +:+ String c "")).
  destruct (s +:+ String c "") eqn:E; [destruct s; discriminate |].
  exact IH.
Qed.

Lemma last_char_bracketed (s : string) :
  last_char ("[" +:+ s +:+ "]") = Some "]"%char.
Proof.
  change ("[" +:+ s +:+ "]") with (String "["%char (s +:+ "]")).
  pose proof (last_char_append s "]"%char) as E.
  destruct (s +:+ "]") eqn:Hs; [discriminate | exact E].
Qed.

(** X1. The type expression determines the type reference: two references
    whose named types have GraphQL names are rendered to the same text
    only when they are the same reference, wrapper for wrapper. *)
Theorem makeFieldTypeExpr_injective (t1 t2 : TypeRef) :
  well_named t1 -> well_named t2 ->
  _makeFieldTypeExpr t1 = _makeFieldTypeExpr t2 -> t1 = t2.
Proof.
  revert t2.
  induction t1 as [n1 | a IH | a IH]; intros [n2 | b | b] [Hf1 Hl1] [Hf2 Hl2] H;
    cbn [_makeFieldTypeExpr getNamedType] in *.
  - now f_equal.
  - exfalso. apply Hl1. rewrite H. apply last_char_append.
  - exfalso. apply Hf1. now rewrite H.
  - exfalso. apply Hl2. rewrite <- H. apply last_char_append.
  - f_equal. apply IH; [split; assumption | split; assumption |].
    now apply append_char_inj in H.
  - exfalso.
    pose proof (last_char_append (_makeFieldTypeExpr a) "!"%char) as E.
    rewrite H, last_char_bracketed in E. discriminate.
  - exfalso. apply Hf2. now rewrite <- H.
  - exfalso.
    pose proof (last_char_append (_makeFieldTypeExpr b) "!"%char) as E.
    rewrite <- H, last_char_bracketed in E. discriminate.
  - f_equal. apply IH; [split; assumption | split; assumption |].
    injection H as H. now apply append_char_inj in H.
Qed.

Lemma makeFieldTypeExpr_injective_witness :
  NonNull (List (NonNull (Named "Int"))) = NonNull (List (NonNull (Named "Int"))).
Proof.
  apply makeFieldTypeExpr_injective.
  - split; discriminate.
  - split; discriminate.
  - reflexivity.
Defined.


(** ** Selection-set renderer *)

(** What the [map] callback of [_makeReturnExpr] and the filter after it
    leave of the entries of an object. *)
Lemma makeReturnExpr_object (entries : list (string * JSValue)) :
  _makeReturnExpr (JObj entries)
  = match omap (fun entry : string * JSValue =>
                  if typeof_object (snd entry) then
                    Some (fst entry +:+ " " +:+ _makeReturnExpr (snd entry))
                  else if truthy (snd entry) && truthy_string (fst entry)
                       then Some (fst entry) else None) entries with
    | [] => ""
    | included => "{" +:+ join ", " included +:+ "}"
    end.
Proof.
  set (callback := fun entry : string * JSValue =>
                     let (field, show) := entry in
                     if typeof_object show then
                       Some (field +:+ " " +:+ _makeReturnExpr show)
                     else if truthy show then Some field else None).
  set (kept := fun entry : string * JSValue =>
                 if typeof_object (snd entry) then
                   Some (fst entry +:+ " " +:+ _makeReturnExpr (snd entry))
                 else if truthy (snd entry) && truthy_string (fst entry)
                      then Some (fst entry) else None).
  assert (Hmap : filter_truthy (map callback entries) = omap kept entries).
  { unfold filter_truthy.
    induction entries as [| [field show] rest IH]; [reflexivity |].
    rewrite map_cons, !omap_step, IH.
    generalize (omap kept rest). intros tl.
    unfold callback, kept. cbn [fst snd].
    destruct (typeof_object show).
    - now destruct field.
    - destruct (truthy show); [| reflexivity]. now destruct field. }
  change (_makeReturnExpr (JObj entries)) with
    (let expr := join ", " (filter_truthy (map callback entries)) in
     if truthy_string expr then "{" +:+ expr +:+ "}" else "").
  cbv zeta.
  pose proof (filter_truthy_all (map callback entries)) as Htr.
  rewrite Hmap in *.
  destruct (omap kept entries) as [| x rest] eqn:Hin; [reflexivity |].
  rewrite join_truthy; [reflexivity | congruence | exact Htr].
Qed.

(** X2. An entry whose value is falsy and not [null] ([false], [undefined],
    0) has no effect on the rendering, wherever it stands among the
    entries. *)
Theorem makeReturnExpr_falsy_entry_ignored (before after : list (string * JSValue))
  (field : string) (show : JSValue) :
  truthy show = false -> show <> JNull ->
  _makeReturnExpr (JObj (before ++ (field, show) :: after))
  = _makeReturnExpr (JObj (before ++ after)).
Proof.
  intros Hfalsy Hnull.
  rewrite !makeReturnExpr_object, !omap_app, omap_step. cbn [fst snd].
  assert (Hobj : typeof_object show = false) by (now destruct show).
  now rewrite Hobj, Hfalsy.
Qed.

Lemma makeReturnExpr_falsy_entry_ignored_witness :
  _makeReturnExpr (JObj ([("a", JBool true)] ++ ("d", JNum 0) :: [("b", JBool true)]))
  = _makeReturnExpr (JObj ([("a", JBool true)] ++ [("b", JBool true)])).
Proof.
  apply makeReturnExpr_falsy_entry_ignored; [reflexivity | discriminate].
Defined.

(** Entries that are all dropped leave nothing to render. *)
Lemma makeReturnExpr_all_dropped (entries : list (string * JSValue)) :
  Forall (fun entry : string * JSValue =>
            typeof_object (snd entry) = false /\
            (truthy (snd entry) = false \/ fst entry = ""))
         entries ->
  _makeReturnExpr (JObj entries) = "".
Proof.
  intros Hall. rewrite makeReturnExpr_object.
  assert (Hnone : omap (fun entry : string * JSValue =>
                if typeof_object (snd entry) then
                  Some (fst entry +:+ " " +:+ _makeReturnExpr (snd entry))
                else if truthy (snd entry) && truthy_string (fst entry)
                     then Some (fst entry) else None) entries = []).
  { induction Hall as [| [field show] rest [Hobj Hdrop] _ IH]; [reflexivity |].
    rewrite omap_step, IH. cbn [fst snd] in *. rewrite Hobj.
    destruct Hdrop as [-> | ->]; [reflexivity |].
    now rewrite andb_false_r. }
  now rewrite Hnone.
Qed.

(** X3. The rendering of an object is the empty string exactly when every
    entry is dropped, and an entry is dropped only when its value is not an
    object nor [null] and either is falsy or stands under the empty name; in
    particular a nested projection always keeps its field, even when the
    nested projection itself renders to nothing. *)
Theorem makeReturnExpr_empty_iff (entries : list (string * JSValue)) :
  _makeReturnExpr (JObj entries) = "" <->
  Forall (fun entry : string * JSValue =>
            typeof_object (snd entry) = false /\
            (truthy (snd entry) = false \/ fst entry = ""))
         entries.
Proof.
  split; [| apply makeReturnExpr_all_dropped].
  rewrite makeReturnExpr_object. intros H.
  assert (Hnone : omap (fun entry : string * JSValue =>
                if typeof_object (snd entry) then
                  Some (fst entry +:+ " " +:+ _makeReturnExpr (snd entry))
                else if truthy (snd entry) && truthy_string (fst entry)
                     then Some (fst entry) else None) entries = []).
  { destruct (omap _ entries); [reflexivity | discriminate]. }
  clear H. induction entries as [| [field show] rest IH]; [constructor |].
  rewrite omap_step in Hnone. cbn [fst snd] in Hnone.
  destruct (typeof_object show) eqn:Hobj; [discriminate |].
  destruct (truthy show) eqn:Htruthy; cbn [andb] in Hnone.
  - destruct field; [| discriminate]. cbn in Hnone.
    constructor; [cbn; auto | auto].
  - constructor; [cbn; auto | auto].
Qed.

(** ** Default Projection Selector *)

Lemma scan_fields_some types (fields : list Field) (p : JSValue) :
  scan_fields types [] fields = Some p ->
  exists before field after,
    fields = before ++ field :: after /\
    Forall (fun f => isLeafType types (field_type f) = false) before /\
    isLeafType types (field_type field) = true /\
    p = JObj [(field_name field, JBool true)].
Proof.
  induction fields as [| head rest IH]; [discriminate |].
  cbn [scan_fields].
  destruct (isLeafType types (field_type head)) eqn:Hleaf.
  - intros [= <-]. exists [], head, rest. repeat split; [constructor | exact Hleaf].
  - intros H. destruct (IH H) as (before & field & after & -> & Hb & Hl & Hp).
    exists (head :: before), field, after.
    repeat split; auto.
Qed.

Lemma scan_fields_none types (fields : list Field) :
  scan_fields types [] fields = None ->
  Forall (fun f => isLeafType types (field_type f) = false) fields.
Proof.
  induction fields as [| head rest IH]; [constructor |].
  cbn [scan_fields].
  destruct (isLeafType types (field_type head)) eqn:Hleaf; [discriminate |].
  intros H. constructor; auto.
Qed.

(** X4. Whenever the selector returns, it has selected one path.  For an
    object type the projection has exactly one entry: either it is
    [{name: true}] for the first declared field whose declared type is a
    leaf type (every field declared before it has none), or no field has a
    declared leaf type and the entry is keyed by the first declared field
    and holds the projection selected, one frame deeper, for that field's
    named type.  For any other type the projection is empty. *)
Theorem default_projection_shape types (stack : nat) (returnType : string)
  (p : JSValue) :
  _makeDefaultProjection types stack returnType = Normal p ->
  match types returnType with
  | GraphQLObjectType fields =>
      (exists before field after,
          fields = before ++ field :: after /\
          Forall (fun f => isLeafType types (field_type f) = false) before /\
          isLeafType types (field_type field) = true /\
          p = JObj [(field_name field, JBool true)]) \/
      (exists first rest value,
          fields = first :: rest /\
          Forall (fun f => isLeafType types (field_type f) = false) fields /\
          _makeDefaultProjection types (pred stack)
            (getNamedType (field_type first)) = Normal value /\
          p = JObj [(field_name first, value)])
  | _ => p = JObj []
  end.
Proof.
  destruct stack as [| stack]; [discriminate |].
  cbn [_makeDefaultProjection pred].
  destruct (types returnType) as [| | fields | fields | possible |];
    try (now intros [= <-]).
  destruct (scan_fields types [] fields) as [returned |] eqn:Hscan.
  - intros [= <-]. left. now apply scan_fields_some.
  - apply scan_fields_none in Hscan.
    destruct fields as [| first rest]; [discriminate |].
    destruct (_makeDefaultProjection types stack (getNamedType (field_type first)))
      as [sub |] eqn:Hsub; [| discriminate].
    intros [= <-]. right. exists first, rest, sub. auto.
Qed.

Lemma default_projection_shape_witness :
  (exists before field after,
      user_fields = before ++ field :: after /\
      Forall (fun f => isLeafType user_types (field_type f) = false) before /\
      isLeafType user_types (field_type field) = true /\
      JObj [("name", JBool true)] = JObj [(field_name field, JBool true)]) \/
  (exists first rest value,
      user_fields = first :: rest /\
      Forall (fun f => isLeafType user_types (field_type f) = false) user_fields /\
      _makeDefaultProjection user_types 2 (getNamedType (field_type first))
      = Normal value /\
      JObj [("name", JBool true)] = JObj [(field_name first, value)]).
Proof.
  exact (default_projection_shape user_types 3 "User" (JObj [("name", JBool true)])
           eq_refl).
Defined.

(** X5. The stack budget matters only for running out of it: a projection
    returned within some budget is returned within every larger one, and so
    is a client returned by [_connect]. *)
Theorem default_projection_stack_monotone types (stack stack' : nat) :
  (stack <= stack')%nat ->
  (forall returnType p,
      _makeDefaultProjection types stack returnType = Normal p ->
      _makeDefaultProjection types stack' returnType = Normal p) /\
  (forall introspected client client',
      typeMap introspected = types ->
      _connect stack introspected client = Normal client' ->
      _connect stack' introspected client = Normal client').
Proof.
  intros Hle.
  assert (Hsel : forall returnType p,
             _makeDefaultProjection types stack returnType = Normal p ->
             _makeDefaultProjection types stack' returnType = Normal p).
  { revert stack' Hle.
    induction stack as [| stack IH]; intros stack' Hle returnType p; [discriminate |].
    destruct stack' as [| stack']; [lia |].
    cbn [_makeDefaultProjection].
    destruct (types returnType) as [| | fields | fields | possible |]; auto.
    destruct (scan_fields types [] fields); auto.
    destruct fields as [| first rest]; auto.
    destruct (_makeDefaultProjection types stack (getNamedType (field_type first)))
      as [sub |] eqn:Hsub; [| discriminate].
    rewrite (IH stack' ltac:(lia) _ _ Hsub). auto. }
  split; [exact Hsel |].
  assert (Hmk : forall kind field op,
             make_operation kind types stack field = Normal op ->
             make_operation kind types stack' field = Normal op).
  { intros kind field op. unfold make_operation.
    destruct (_makeDefaultProjection types stack (getNamedType (field_type field)))
      as [proj |] eqn:Hproj; [| discriminate].
    now rewrite (Hsel _ _ Hproj). }
  assert (Hinstall : forall kind fields c c',
             install kind types stack fields c = Normal c' ->
             install kind types stack' fields c = Normal c').
  { intros kind fields. induction fields as [| head rest IH]; intros c c'; [auto |].
    cbn [install].
    destruct (make_operation kind types stack head) as [op |] eqn:Hop; [| discriminate].
    rewrite (Hmk _ _ _ Hop). cbn. apply IH. }
  intros introspected client client' <-. unfold _connect.
  destruct (install Query (typeMap introspected) stack (queryType introspected)
              (set_schema introspected client)) as [c1 |] eqn:Hq; [| discriminate].
  rewrite (Hinstall _ _ _ _ Hq). cbn.
  destruct (mutationType introspected); [apply Hinstall | auto].
Qed.

Lemma default_projection_stack_monotone_witness :
  _makeDefaultProjection user_types 9 "Token" = Normal (JObj [("id", JObj [])]).
Proof.
  apply (proj1 (default_projection_stack_monotone user_types 2 9 ltac:(lia))).
  reflexivity.
Defined.

(** X6. An object type none of whose fields is declared with a bare leaf
    type, and whose first field leads back to the type itself, has no
    default projection: the selector exhausts every stack, and [_connect]
    fails on a schema with a query field of that type. *)
Theorem default_projection_self_reference types (returnType : string)
  (first : Field) (rest : list Field) :
  types returnType = GraphQLObjectType (first :: rest) ->
  Forall (fun f => isLeafType types (field_type f) = false) (first :: rest) ->
  getNamedType (field_type first) = returnType ->
  (forall stack,
      _makeDefaultProjection types stack returnType
      = Throw (RangeError "Maximum call stack size exceeded")) /\
  (forall stack introspected client (field : Field),
      typeMap introspected = types ->
      field ∈ queryType introspected ->
      getNamedType (field_type field) = returnType ->
      exists e, _connect stack introspected client = Throw e).
Proof.
  intros Htype Hnone Hback.
  assert (Hloop : forall stack,
             _makeDefaultProjection types stack returnType
             = Throw (RangeError "Maximum call stack size exceeded")).
  { induction stack as [| stack IH]; [reflexivity |].
    cbn [_makeDefaultProjection]. rewrite Htype, (scan_fields_no_leaf _ _ Hnone).
    now rewrite Hback, IH. }
  split; [exact Hloop |].
  intros stack introspected client field Htypes Hin Hret.
  apply (connect_throws_on_field stack introspected client field); [now left |].
  rewrite Htypes, Hret, Hloop. eauto.
Qed.

Lemma default_projection_self_reference_witness :
  exists e, _connect 50 person_schema (constructor sample_logger 100) = Throw e.
Proof.
  apply (proj2 (default_projection_self_reference person_types "Person"
                  {| field_name := "friends"; field_args := [];
                     field_type := NonNull (List (NonNull (Named "Person"))) |}
                  [ {| field_name := "id"; field_args := [];
                       field_type := NonNull (Named "ID") |} ]
                  eq_refl ltac:(repeat constructor) eq_refl)
           50%nat person_schema (constructor sample_logger 100)
           {| field_name := "me"; field_args := []; field_type := Named "Person" |}).
  - reflexivity.
  - apply elem_of_cons. now left.
  - reflexivity.
Defined.

(** ** A synthesized operation: answers *)

(** A call that gets an answer from the transport completes with what
    reading the field from the answer gives, unless that is a throw that
    the failure classification hands to the logger. *)
Lemma invoke_answered ext op caller_logger variables projections options
  (w : World) id document resp :
  apollo (this (_ensureClient w)) = Some id ->
  gql ext (document_text op (effective_projections op projections))
  = Normal document ->
  options <> JNull ->
  transport ext (request_of op caller_logger variables options w id document)
  = Normal resp ->
  (forall e, (data ← get resp "data"; member data (field_name (op_field op)))
             = Throw e -> server_error e = false) ->
  invoke ext op caller_logger variables projections options w
  = (executed (request_of op caller_logger variables options w id document) w,
     data ← get resp "data"; member data (field_name (op_field op))).
Proof.
  intros Hid Hgql Hopt Hresp Hclass. unfold invoke, attempt.
  rewrite Hid, Hgql. unfold request_of in Hresp.
  assert (Hshape :
    match options with JUndefined => JObj [] | _ => options end <> JNull)
    by (now destruct options).
  destruct (match options with JUndefined => JObj [] | _ => options end)
    eqn:Hdef; try congruence; rewrite Hresp;
    (destruct (data ← get resp "data"; member data (field_name (op_field op)))
       as [value | e] eqn:Hread;
     [ cbn in Hread |- *; rewrite Hread; unfold executed, request_of;
       now rewrite Hdef
     | cbn in Hread |- *; rewrite Hread, (Hclass e eq_refl);
       unfold executed, request_of; now rewrite Hdef ]).
Qed.

Lemma find_missing (entries : list (string * JSValue)) (key : string) :
  Forall (fun kv => fst kv <> key) entries ->
  List.find (fun kv => String.eqb (fst kv) key) entries = None.
Proof.
  induction 1 as [| [k v] rest Hk _ IH]; [reflexivity |].
  cbn [List.find fst]. cbn [fst] in Hk.
  destruct (String.eqb_spec k key); [contradiction | exact IH].
Qed.

Lemma find_present (before : list (string * JSValue)) (key : string)
  (value : JSValue) (after : list (string * JSValue)) :
  Forall (fun kv => fst kv <> key) before ->
  List.find (fun kv => String.eqb (fst kv) key) (before ++ (key, value) :: after)
  = Some (key, value).
Proof.
  induction 1 as [| [k v] rest Hk _ IH]; cbn [app List.find fst].
  - now rewrite String.eqb_refl.
  - cbn [fst] in Hk. destruct (String.eqb_spec k key); [contradiction | exact IH].
Qed.

Lemma member_object (entries : list (string * JSValue)) (key : string) :
  exists r, member (JObj entries) key = Normal r.
Proof.
  cbn [member].
  destruct (List.find (fun kv => String.eqb (fst kv) key) entries); [eauto |].
  destruct (is_member key Object_prototype); eauto.
Qed.

(** X7. A call whose transport answers with an object [data] returns the
    value of the first entry [data] holds under the field's name.  When
    [data] holds nothing under that name, the call returns [undefined],
    unless the name is one every object inherits a member for
    ([constructor], [toString], ...): then it returns that built-in member.
    In each case the request is on record and no logger is called. *)
Theorem invoke_returns_field ext op caller_logger variables projections options
  (w : World) id document resp (entries : list (string * JSValue)) :
  apollo (this (_ensureClient w)) = Some id ->
  gql ext (document_text op (effective_projections op projections))
  = Normal document ->
  options <> JNull ->
  transport ext (request_of op caller_logger variables options w id document)
  = Normal resp ->
  get resp "data" = Normal (JObj entries) ->
  (forall before value after,
      entries = before ++ (field_name (op_field op), value) :: after ->
      Forall (fun kv => fst kv <> field_name (op_field op)) before ->
      invoke ext op caller_logger variables projections options w
      = (executed (request_of op caller_logger variables options w id document) w,
         Normal (Found value))) /\
  (Forall (fun kv => fst kv <> field_name (op_field op)) entries ->
   invoke ext op caller_logger variables projections options w
   = (executed (request_of op caller_logger variables options w id document) w,
      Normal (if is_member (field_name (op_field op)) Object_prototype
              then Inherited (field_name (op_field op))
              else Found JUndefined))).
Proof.
  intros Hid Hgql Hopt Hresp Hdata.
  assert (Hinvoke :
    invoke ext op caller_logger variables projections options w
    = (executed (request_of op caller_logger variables options w id document) w,
       member (JObj entries) (field_name (op_field op)))).
  { rewrite (invoke_answered _ _ _ _ _ _ _ id document resp Hid Hgql Hopt Hresp).
    - now rewrite Hdata.
    - intros e. rewrite Hdata.
      destruct (member_object entries (field_name (op_field op))) as [r Hr].
      change (data ← Normal (JObj entries); member data (field_name (op_field op)))
        with (member (JObj entries) (field_name (op_field op))).
      rewrite Hr. discriminate. }
  split.
  - intros before value after -> Hfirst. rewrite Hinvoke. cbn [member].
    now rewrite find_present.
  - intros Hmissing. rewrite Hinvoke. cbn [member].
    rewrite find_missing by exact Hmissing.
    now destruct (is_member (field_name (op_field op)) Object_prototype).
Qed.

Lemma invoke_returns_field_witness :
  snd (invoke (answering_externals
                 (JObj [("data", JObj [("user", JObj [("name", JBool true)])])]))
         user_operation None user_variables JUndefined JUndefined
         (fresh_world 100))
  = Normal (Found (JObj [("name", JBool true)])).
Proof.
  rewrite (proj1 (invoke_returns_field
                    (answering_externals
                       (JObj [("data", JObj [("user", JObj [("name", JBool true)])])]))
                    user_operation None user_variables JUndefined JUndefined
                    (fresh_world 100) 0%nat
                    "query ($id: ID!) { user (id: $id) {name} }"
                    (JObj [("data", JObj [("user", JObj [("name", JBool true)])])])
                    [("user", JObj [("name", JBool true)])]
                    eq_refl eq_refl ltac:(discriminate) eq_refl eq_refl)
             [] (JObj [("name", JBool true)]) [] eq_refl ltac:(constructor)).
  reflexivity.
Defined.

(** X8. A call whose transport answers without [data] (the answer is
    [undefined] or [null], or its [data] is) throws a [TypeError] to the
    caller; the error carries no network error, so no logger is called. *)
Theorem invoke_answer_without_data ext op caller_logger variables projections
  options (w : World) id document resp :
  apollo (this (_ensureClient w)) = Some id ->
  gql ext (document_text op (effective_projections op projections))
  = Normal document ->
  options <> JNull ->
  transport ext (request_of op caller_logger variables options w id document)
  = Normal resp ->
  resp = JUndefined \/ resp = JNull \/
  get resp "data" = Normal JUndefined \/ get resp "data" = Normal JNull ->
  exists message,
    invoke ext op caller_logger variables projections options w
    = (executed (request_of op caller_logger variables options w id document) w,
       Throw (TypeError message)).
Proof.
  intros Hid Hgql Hopt Hresp Hnodata.
  assert (Hread : exists message,
             (data ← get resp "data"; member data (field_name (op_field op)))
             = Throw (TypeError message)).
  { destruct Hnodata as [-> | [-> | [Hd | Hd]]]; try rewrite Hd; cbn; eauto. }
  destruct Hread as [message Hread]. exists message.
  rewrite (invoke_answered _ _ _ _ _ _ _ id document resp Hid Hgql Hopt Hresp).
  - now rewrite Hread.
  - intros e. rewrite Hread. now intros [= <-].
Qed.

Lemma invoke_answer_without_data_witness :
  exists message,
    snd (invoke (answering_externals (JObj [("errors", JBool true)]))
           user_operation None user_variables JUndefined JUndefined
           (fresh_world 100))
    = Throw (TypeError message).
Proof.
  destruct (invoke_answer_without_data
              (answering_externals (JObj [("errors", JBool true)]))
              user_operation None user_variables JUndefined JUndefined
              (fresh_world 100) 0%nat
              "query ($id: ID!) { user (id: $id) {name} }"
              (JObj [("errors", JBool true)])
              eq_refl eq_refl ltac:(discriminate) eq_refl
              ltac:(right; right; left; reflexivity)) as [message H].
  exists message. now rewrite H.
Defined.

(** ** Transport Session Manager: what a client is sent *)

Lemma served_app (id : nat) (evs evs' : list Event) :
  served id (evs ++ evs') = (served id evs + served id evs')%nat.
Proof. unfold served. now rewrite List.filter_app, length_app. Qed.

Lemma ensureClient_invariant (t : Z) (w : World) :
  0 < t <= MAX_SAFE_INTEGER ->
  session_invariant t 0 w ->
  session_invariant t 1 (_ensureClient w) /\
  exists cur, apollo (this (_ensureClient w)) = Some cur.
Proof.
  intros Ht [Hth Hstate]. unfold MAX_SAFE_INTEGER in *.
  assert (Hsafe : counter (this w) < 2 ^ 53).
  { destruct Hstate as [(_ & -> & _) | (cur & _ & _ & Hc & _)]; lia. }
  destruct (ensureClient_step w Hsafe) as (Hnew & Hold & Hkeep).
  rewrite Hth in Hnew, Hold.
  assert (Hserved : forall id,
             served id (events (_ensureClient w)) = served id (events w)).
  { intros id. unfold _ensureClient.
    destruct (resetStoreEvery (this w) <=? counter (this w)); cbn [events];
      [| reflexivity].
    rewrite served_app. cbn. lia. }
  destruct Hstate as [(Hnone & Hcounter & Hmade & Hzero)
                     | (cur & Hcur & Hlen & Hc & Hbound & Hothers & Hlater)].
  - destruct Hnew as (Hmade' & Hapollo' & Hcounter'); [lia |].
    rewrite Hmade in Hmade', Hapollo'. cbn [app length] in Hmade', Hapollo'.
    split; [| eauto]. split; [congruence |]. right. exists 0%nat.
    rewrite Hmade', Hcounter'. repeat split; try lia; auto.
    + rewrite Hserved, Hzero. lia.
    + intros id _. rewrite Hserved, Hzero. lia.
    + intros id _. now rewrite Hserved.
  - destruct (Z.le_gt_cases t (counter (this w))) as [Hfull | Hroom].
    + destruct Hnew as (Hmade' & Hapollo' & Hcounter'); [lia |].
      rewrite Hlen in Hmade', Hapollo'.
      split; [| eauto]. split; [congruence |]. right. exists (S cur).
      rewrite Hmade', Hcounter', length_app, Hlen. cbn [length].
      repeat split; try lia; auto.
      * rewrite Hserved, Hlater; lia.
      * intros id Hne. rewrite Hserved.
        destruct (Nat.eq_dec id cur) as [-> | Hne']; [lia | now apply Hothers].
      * intros id Hlt. rewrite Hserved. apply Hlater. lia.
    + destruct Hold as (Hmade' & Hapollo' & Hcounter'); [lia |].
      split; [| exists cur; congruence]. split; [congruence |]. right. exists cur.
      rewrite Hmade', Hcounter', Hapollo'.
      repeat split; try lia; auto.
      * rewrite Hserved. lia.
      * intros id Hne. rewrite Hserved. now apply Hothers.
      * intros id Hlt. rewrite Hserved. now apply Hlater.
Qed.

(** A call adds to the events of [_ensureClient] at most one request, sent
    to the current transport client, and constructs nothing more. *)
Lemma invoke_world ext op caller_logger variables projections options (w : World) :
  exists extra,
    fst (invoke ext op caller_logger variables projections options w)
    = {| this := this (_ensureClient w);
         events := events (_ensureClient w) ++ extra |} /\
    constructed extra = [] /\
    forall id,
      (served id extra <= 1)%nat /\
      (apollo (this (_ensureClient w)) <> Some id -> served id extra = 0%nat).
Proof.
  assert (Hattempt : forall lg projs opts, exists extra,
    fst (attempt ext op lg variables projs opts w)
    = {| this := this (_ensureClient w);
         events := events (_ensureClient w) ++ extra |} /\
    constructed extra = [] /\
    forall id,
      (served id extra <= 1)%nat /\
      (apollo (this (_ensureClient w)) <> Some id -> served id extra = 0%nat)).
  { intros lg projs opts. unfold attempt.
    assert (Hnil : exists extra,
      _ensureClient w
      = {| this := this (_ensureClient w);
           events := events (_ensureClient w) ++ extra |} /\
      constructed extra = [] /\
      forall id,
        (served id extra <= 1)%nat /\
        (apollo (this (_ensureClient w)) <> Some id -> served id extra = 0%nat)).
    { exists []. rewrite app_nil_r. split; [now destruct (_ensureClient w) |].
      split; [reflexivity |]. intros id. cbn. split; [lia | reflexivity]. }
    destruct (apollo (this (_ensureClient w))) as [cur |] eqn:Hcur; [| exact Hnil].
    destruct (gql ext (document_text op projs)) as [document |]; [| exact Hnil].
    assert (Hsent : forall req, req_instance req = cur -> exists extra,
      {| this := this (_ensureClient w);
         events := events (_ensureClient w) ++ [Executed req] |}
      = {| this := this (_ensureClient w);
           events := events (_ensureClient w) ++ extra |} /\
      constructed extra = [] /\
      forall id,
        (served id extra <= 1)%nat /\
        (Some cur <> Some id -> served id extra = 0%nat)).
    { intros req Hreq. exists [Executed req]. split; [reflexivity |].
      split; [reflexivity |]. intros id. unfold served. cbn. rewrite Hreq.
      destruct (Nat.eqb_spec cur id) as [-> | Hne]; cbn; split; try lia; congruence. }
    destruct opts; cbn [fst]; try (apply Hsent; reflexivity). exact Hnil. }
  unfold invoke.
  destruct (Hattempt
              match caller_logger with Some l => l | None => logger (this w) end
              (effective_projections op projections)
              match options with JUndefined => JObj [] | _ => options end)
    as (extra & Hw & Hmade & Hserved).
  destruct (attempt ext op _ variables _ _ w) as [w1 [value | e]]; cbn [fst] in *.
  - exists extra. auto.
  - destruct (server_error e); cbn [fst]; [| exists extra; auto].
    exists (extra ++ [LoggerFail
                        (logger_name match caller_logger with
                                     | Some l => l
                                     | None => logger (this w)
                                     end) "_failed_api_server_error" e]).
    rewrite Hw. cbn [this events]. rewrite app_assoc. split; [reflexivity |].
    split; [now rewrite constructed_app, Hmade |].
    intros id. rewrite served_app. cbn. rewrite Nat.add_0_r. apply Hserved.
Qed.

Lemma invoke_invariant (t : Z) ext op caller_logger variables projections options
  (w : World) :
  0 < t <= MAX_SAFE_INTEGER ->
  session_invariant t 0 w ->
  session_invariant t 0
    (fst (invoke ext op caller_logger variables projections options w)).
Proof.
  intros Ht Hinv.
  destruct (ensureClient_invariant t w Ht Hinv) as [[Hth Hstate] [cur Hcur]].
  destruct (invoke_world ext op caller_logger variables projections options w)
    as (extra & -> & Hmade & Hserved).
  split; [exact Hth |]. cbn [this events].
  destruct Hstate as [(Hnone & _) | (cur' & Hcur' & Hlen & Hc & Hbound & Hothers & Hlater)];
    [congruence |].
  right. exists cur'. rewrite constructed_app, Hmade, app_nil_r.
  repeat split; auto; try lia.
  - rewrite served_app. destruct (Hserved cur') as [Hone _]. lia.
  - intros id Hne. rewrite served_app.
    destruct (Hserved id) as [_ Hzero]. rewrite Hzero by congruence.
    rewrite Nat.add_0_r. now apply Hothers.
  - intros id Hlt. rewrite served_app.
    destruct (Hserved id) as [_ Hzero].
    rewrite Hzero by (rewrite Hcur'; intros Heq; injection Heq as Heq; lia).
    rewrite Nat.add_0_r. now apply Hlater.
Qed.

(** X9. With a threshold [t] between 1 and [Number.MAX_SAFE_INTEGER], over
    any calls of any operations made one after the other since the client
    was constructed, no transport client is sent more than [t] requests. *)
Theorem transport_client_serves_at_most_threshold (ext : Externals)
  (lg : Logger) (t : Z) (calls : list Call) (id : nat) :
  0 < t <= MAX_SAFE_INTEGER ->
  Z.of_nat (served id
              (events (run_calls ext calls
                         {| this := constructor lg t; events := [] |})))
  <= t.
Proof.
  intros Ht.
  assert (Hrun : forall calls w,
             session_invariant t 0 w ->
             session_invariant t 0 (run_calls ext calls w)).
  { clear calls. induction calls as [| c rest IH]; intros w Hinv; [exact Hinv |].
    cbn [run_calls]. apply IH. now apply invoke_invariant. }
  destruct (Hrun calls {| this := constructor lg t; events := [] |})
    as [_ [(_ & _ & _ & Hzero) | (cur & _ & _ & Hc & Hbound & Hothers & _)]].
  - split; [reflexivity |]. left. repeat split. 
  - rewrite Hzero. lia.
  - destruct (Nat.eq_dec id cur) as [-> | Hne]; [lia | now apply Hothers].
Qed.

Lemma transport_client_serves_at_most_threshold_witness :
  Z.of_nat (served 0
              (events (run_calls (answering_externals (JObj [("data", JObj [])]))
                         [ mkCall user_operation None user_variables JUndefined JUndefined;
                           mkCall user_operation None user_variables JUndefined JUndefined;
                           mkCall user_operation None user_variables JUndefined JUndefined ]
                         {| this := constructor sample_logger 2; events := [] |})))
  <= 2.
Proof.
  apply transport_client_serves_at_most_threshold.
  unfold MAX_SAFE_INTEGER. lia.
Defined.

(** X10. With a threshold above 2^53 the counter never reaches it: however
    many calls were made before, a call constructs no transport client and
    throws a [TypeError] to the caller, for reading the method of an
    undefined [this.apollo]. *)
Theorem threshold_never_reached (ext : Externals) (lg : Logger) (t : Z)
  (calls : list Call) (c : Call) :
  2 ^ 53 < t ->
  let w := run_calls ext calls {| this := constructor lg t; events := [] |} in
  invoke ext (call_operation c) (call_logger c) (call_variables c)
    (call_projections c) (call_options c) w
  = (_ensureClient w,
     Throw (TypeError ("Cannot read property '"
                         +:+ method (op_kind (call_operation c))
                         +:+ "' of undefined"))) /\
  constructed (events (_ensureClient w)) = [].
Proof.
  intros Ht w.
  set (idle := fun w : World =>
                 resetStoreEvery (this w) = t /\ apollo (this w) = None /\
                 counter (this w) <= 2 ^ 53 /\ constructed (events w) = []).
  assert (Hensure : forall w0, idle w0 -> idle (_ensureClient w0)).
  { intros w0 (Hth & Hnone & Hc & Hmade). unfold idle, _ensureClient.
    rewrite Hth. destruct (Z.leb_spec t (counter (this w0))); [lia |].
    cbn. unfold js_increment.
    destruct (Z.ltb_spec (counter (this w0)) (2 ^ 53)); repeat split; auto; lia. }
  assert (Hinvoke : forall w0 c0, idle w0 ->
    invoke ext (call_operation c0) (call_logger c0) (call_variables c0)
      (call_projections c0) (call_options c0) w0
    = (_ensureClient w0,
       Throw (TypeError ("Cannot read property '"
                           +:+ method (op_kind (call_operation c0))
                           +:+ "' of undefined")))).
  { intros w0 c0 Hidle. destruct (Hensure w0 Hidle) as (_ & Hnone & _).
    unfold invoke, attempt. now rewrite Hnone. }
  assert (Hrun : forall calls0 w0, idle w0 -> idle (run_calls ext calls0 w0)).
  { induction calls0 as [| c0 rest IH]; intros w0 Hidle; [exact Hidle |].
    cbn [run_calls]. apply IH. rewrite (Hinvoke w0 c0 Hidle). cbn [fst].
    now apply Hensure. }
  assert (Hw : idle w).
  { apply Hrun. unfold idle. cbn. unfold MAX_SAFE_INTEGER. repeat split; lia. }
  split; [now apply Hinvoke |].
  now destruct (Hensure w Hw) as (_ & _ & _ & Hmade).
Qed.

Lemma threshold_never_reached_witness :
  constructed (events (_ensureClient
     (run_calls (answering_externals (JObj [("data", JObj [])]))
        [ mkCall user_operation None user_variables JUndefined JUndefined ]
        {| this := constructor sample_logger (2 ^ 53 + 1); events := [] |}))) = [].
Proof.
  apply (threshold_never_reached (answering_externals (JObj [("data", JObj [])]))
           sample_logger (2 ^ 53 + 1)
           [ mkCall user_operation None user_variables JUndefined JUndefined ]
           (mkCall user_operation None user_variables JUndefined JUndefined)).
  lia.
Defined.

(** ** The default logger *)

(** X11. The default logger's [fail] never returns: it throws the error it
    is given when that is an [Error] instance and no further argument is
    passed, and a new [Error] otherwise.  So a call that reports to the
    default logger never completes normally once its guarded part has
    thrown: the caller gets the original error when the classification
    re-raises it or when it is an [Error] instance, and a new [Error]
    made of its string conversion otherwise. *)
Theorem defaultLogger_reports_then_raises (instanceof_Error : JSError -> bool)
  (to_String : JSError -> string) (ext : Externals) (op : Operation)
  (variables projections options : JSValue) (w : World) (e : JSError) :
  let lg := defaultLogger instanceof_Error to_String in
  snd (attempt ext op lg variables (effective_projections op projections)
         (match options with JUndefined => JObj [] | _ => options end) w)
  = Throw e ->
  (forall code err args,
      exists thrown,
        defaultLogger_fail instanceof_Error to_String code err args = Throw thrown) /\
  snd (invoke ext op (Some lg) variables projections options w)
  = Throw (if server_error e && negb (instanceof_Error e)
           then new_Error (to_String e) else e).
Proof.
  intros lg Hthrow. split.
  - intros code err args. unfold defaultLogger_fail.
    destruct (instanceof_Error err && Nat.leb (length args) 0); eauto.
  - unfold invoke. fold lg.
    destruct (attempt ext op lg variables (effective_projections op projections)
                (match options with JUndefined => JObj [] | _ => options end) w)
      as [w1 outcome].
    cbn [snd] in Hthrow. subst outcome.
    destruct (server_error e); cbn [snd andb]; [| reflexivity].
    unfold lg, defaultLogger, defaultLogger_fail. cbn [fail length Nat.leb].
    rewrite andb_true_r. now destruct (instanceof_Error e).
Qed.

Lemma defaultLogger_reports_then_raises_witness :
  snd (invoke (failing_externals (server_failure (Some 503))) user_operation
         (Some (defaultLogger (fun _ => true) err_message))
         user_variables JUndefined JUndefined (fresh_world 100))
  = Throw (server_failure (Some 503)).
Proof.
  apply (proj2 (defaultLogger_reports_then_raises (fun _ => true) err_message
                  (failing_externals (server_failure (Some 503))) user_operation
                  user_variables JUndefined JUndefined (fresh_world 100)
                  (server_failure (Some 503)) eq_refl)).
Defined.

(** ** Operation Synthesizer: what [_connect] leaves *)

(** A loop of [_connect] writes operations only. *)
Lemma install_state kind types stack (fields : list Field) :
  forall client client',
    install kind types stack fields client = Normal client' ->
    logger client' = logger client /\
    resetStoreEvery client' = resetStoreEvery client /\
    apollo client' = apollo client /\
    counter client' = counter client /\
    schema client' = schema client.
Proof.
  induction fields as [| head rest IH]; intros client client' Hrun.
  - cbn in Hrun. injection Hrun as <-. auto.
  - cbn [install] in Hrun.
    destruct (make_operation kind types stack head) as [op | e]; [| discriminate].
    now destruct (IH _ _ Hrun) as (-> & -> & -> & -> & ->).
Qed.

(** X12. When no query or mutation field is named like a property or a
    method the client has already, a client that [_connect] returns holds
    an operation under the name of every query field and of every mutation
    field and under no other name, has recorded the schema, and is
    otherwise as constructed: no transport client exists yet and the
    counter is still at the sentinel. *)
Theorem connect_installs_field_names stack (introspected : Schema)
  (lg : Logger) (t : Z) (client' : GraphQLClient) :
  Forall (fun field : Field => field_name field ∉ own_names)
         (queryType introspected ++ default [] (mutationType introspected)) ->
  _connect stack introspected (constructor lg t) = Normal client' ->
  dom (members client')
  = list_to_set (field_name <$> queryType introspected)
    ∪ list_to_set (field_name <$> default [] (mutationType introspected)) /\
  (forall name, name ∈ own_names -> members client' !! name = None) /\
  schema client' = Some introspected /\
  apollo client' = None /\
  counter client' = MAX_SAFE_INTEGER /\
  resetStoreEvery client' = t /\
  logger client' = lg.
Proof.
  intros Hnames. unfold _connect.
  destruct (install Query (typeMap introspected) stack (queryType introspected)
              (set_schema introspected (constructor lg t))) as [c1 |] eqn:Hq;
    [| discriminate].
  cbn. pose proof (install_dom _ _ _ _ _ _ Hq) as Hdom1.
  destruct (install_state _ _ _ _ _ _ Hq) as (Hl1 & Ht1 & Ha1 & Hc1 & Hs1).
  cbn in Hdom1, Hl1, Ht1, Ha1, Hc1, Hs1. rewrite dom_empty_L, (left_id_L ∅ (∪)) in Hdom1.
  assert (Hfree : forall c,
    dom (members c)
    = list_to_set (field_name <$> queryType introspected)
      ∪ list_to_set (field_name <$> default [] (mutationType introspected)) ->
    forall name, name ∈ own_names -> members c !! name = None).
  { intros c Hdom name Hown. apply not_elem_of_dom. rewrite Hdom.
    rewrite <- list_to_set_app_L, <- fmap_app, elem_of_list_to_set.
    intros Hin. apply list_elem_of_fmap in Hin as (field & -> & Hin).
    rewrite Forall_forall in Hnames. now apply (Hnames field Hin). }
  destruct (mutationType introspected) as [fields |];
    [ change (default [] (Some fields)) with fields in *
    | change (default [] (@None (list Field))) with (@nil Field) in * ].
  - intros Hm. pose proof (install_dom _ _ _ _ _ _ Hm) as Hdom2.
    destruct (install_state _ _ _ _ _ _ Hm) as (Hl2 & Ht2 & Ha2 & Hc2 & Hs2).
    rewrite Hdom1 in Hdom2.
    repeat split; try congruence. now apply Hfree.
  - intros [= <-].
    assert (Hdom : dom (members c1)
                   = list_to_set (field_name <$> queryType introspected)
                     ∪ list_to_set (field_name <$> [])).
    { now rewrite fmap_nil, list_to_set_nil, (right_id_L ∅ (∪)). }
    repeat split; try congruence. now apply Hfree.
Qed.

Lemma connect_installs_field_names_witness :
  resetStoreEvery (match _connect 4 (user_schema (Some ping_mutation))
                           (constructor sample_logger 100) with
                   | Normal c => c
                   | Throw _ => constructor sample_logger 7
                   end) = 100.
Proof.
  apply (connect_installs_field_names 4 (user_schema (Some ping_mutation))
           sample_logger 100).
  - repeat constructor; intros Hin;
      repeat (apply elem_of_cons in Hin as [Hin | Hin]; [discriminate |]);
      now apply elem_of_nil in Hin.
  - reflexivity.
Defined.

(** X13. A query field whose name no mutation field has keeps its query
    operation through [_connect]: the client holds, under that name, the
    operation made for the last query field of the name. *)
Theorem connect_query_operation_kept stack (introspected : Schema)
  (client client' : GraphQLClient) (before : list Field) (query_field : Field)
  (after : list Field) :
  _connect stack introspected client = Normal client' ->
  queryType introspected = before ++ query_field :: after ->
  field_name query_field ∉ field_name <$> after ->
  field_name query_field
    ∉ field_name <$> default [] (mutationType introspected) ->
  exists op,
    members client' !! field_name query_field = Some op /\
    make_operation Query (typeMap introspected) stack query_field = Normal op /\
    op_kind op = Query /\ op_field op = query_field.
Proof.
  intros Hrun Hquery Hlast Hmutation. unfold _connect in Hrun.
  destruct (install Query (typeMap introspected) stack (queryType introspected)
              (set_schema introspected client)) as [c1 |] eqn:Hq;
    [| discriminate].
  cbn in Hrun. rewrite Hquery in Hq.
  destruct (install_last _ _ _ _ _ _ _ _ Hq Hlast) as (op & Hop & Hmk).
  exists op.
  destruct (make_operation_normal _ _ _ _ _ Hmk) as (Hk & Hf & _).
  repeat split; auto.
  destruct (mutationType introspected) as [fields |]; cbn [default] in Hmutation.
  - now rewrite (install_other _ _ _ _ _ _ _ Hrun Hmutation).
  - now injection Hrun as <-.
Qed.

Lemma connect_query_operation_kept_witness :
  exists op,
    members (match _connect 4 (user_schema (Some ping_mutation))
                     (constructor sample_logger 100) with
             | Normal c => c
             | Throw _ => constructor sample_logger 100
             end) !! "user" = Some op /\
    op_kind op = Query.
Proof.
  destruct (connect_query_operation_kept 4 (user_schema (Some ping_mutation))
              (constructor sample_logger 100)
              (match _connect 4 (user_schema (Some ping_mutation))
                       (constructor sample_logger 100) with
               | Normal c => c
               | Throw _ => constructor sample_logger 100
               end)
              []
              {| field_name := "user";
                 field_args := [ {| arg_name := "id"; arg_type := NonNull (Named "ID") |} ];
                 field_type := Named "User" |}
              [ {| field_name := "ping"; field_args := []; field_type := Named "String" |} ])
    as (op & Hop & _ & Hkind & _).
  - reflexivity.
  - reflexivity.
  - cbn. intros Hin. apply elem_of_cons in Hin as [Hin | Hin]; [discriminate |].
    now apply elem_of_nil in Hin.
  - cbn. intros Hin. apply elem_of_cons in Hin as [Hin | Hin]; [discriminate |].
    now apply elem_of_nil in Hin.
  - exists op. split; [exact Hop | exact Hkind].
Defined.

(** ** A synthesized operation: projections that select nothing *)

(** X14. A caller's projection that has entries, none of which is kept by
    the renderer, is used as it is: the call does not fall back on the
    default projection, and the document gets an empty selection set
    whatever the field's return type. *)
Theorem document_of_projection_selecting_nothing (op : Operation)
  (entries : list (string * JSValue)) :
  entries <> [] ->
  Forall (fun entry : string * JSValue =>
            typeof_object (snd entry) = false /\
            (truthy (snd entry) = false \/ fst entry = ""))
         entries ->
  effective_projections op (JObj entries) = JObj entries /\
  document_text op (effective_projections op (JObj entries))
  = keyword (op_kind op) +:+ " (" +:+ queryArgDeclare op +:+ ") { "
      +:+ field_name (op_field op) +:+ " (" +:+ queryArgs op +:+ ") "
      +:+ "" +:+ " }".
Proof.
  intros Hne Hall.
  assert (Heff : effective_projections op (JObj entries) = JObj entries)
    by (destruct entries; [congruence | reflexivity]).
  split; [exact Heff |].
  unfold document_text. rewrite Heff.
  now rewrite (makeReturnExpr_all_dropped entries Hall).
Qed.

Lemma document_of_projection_selecting_nothing_witness :
  document_text
    {| op_kind := Query;
       op_field := {| field_name := "user"; field_args := [];
                      field_type := Named "User" |};
       queryArgDeclare := "$id: ID!"; queryArgs := "id: $id";
       defaultProjections := JObj [("name", JBool true)] |}
    (effective_projections
       {| op_kind := Query;
          op_field := {| field_name := "user"; field_args := [];
                         field_type := Named "User" |};
          queryArgDeclare := "$id: ID!"; queryArgs := "id: $id";
          defaultProjections := JObj [("name", JBool true)] |}
       (JObj [("name", JBool false)]))
  = "query ($id: ID!) { user (id: $id)  }".
Proof.
  apply (proj2 (document_of_projection_selecting_nothing
                  {| op_kind := Query;
                     op_field := {| field_name := "user"; field_args := [];
                                    field_type := Named "User" |};
                     queryArgDeclare := "$id: ID!"; queryArgs := "id: $id";
                     defaultProjections := JObj [("name", JBool true)] |}
                  [("name", JBool false)]
                  ltac:(discriminate)
                  ltac:(repeat constructor))).
Defined.
